(** * anydraw: collaboration relay, client shape store and tool geometry

    A shallow embedding of the parts of anydraw that synchronise the shared
    drawing surface:
    - [Js]:       the JSON values exchanged on the socket and the few JavaScript
                  conversions the relay applies to them ([String], [Number],
                  truthiness);
    - [Relay]:    the two relay message handlers of the repository,
                  [apps/ws-backend/src/index.ts] and the older handler kept in
                  [unnamed/part_007];
    - [Store]:    the client shape store of [draw/Game.ts] (socket message
                  branches, pending creation, bring-to-front);
    - [Geometry]: the resize transform ([ResizeTool]), the selection
                  hit-test ([pointInShape]) and the Ramer-Douglas-Peucker
                  simplification of freehand strokes;
    - [Camera]:   [Game.setZoom] and the wheel listener, over JavaScript
                  numbers with NaN and the infinities.

    Coordinates are rationals [Q]: the model is exact real arithmetic on the
    finite values; [Camera] adds NaN and the infinities where the claim is
    about them. *)

From Stdlib Require Import List String Ascii ZArith QArith Qminmax Lia Bool.
From Stdlib Require Import DecimalString Qabs Lqa Permutation.
Import ListNotations.

(* ------------------------------------------------------------------ *)
(** ** JSON values and the JavaScript conversions used by the relay *)

Module Js.
Local Open Scope string_scope.

#[local] Set Warnings "-register-all".

(** Parsed JSON.  Numbers that occur in this protocol are integers (database
    ids, room ids); [JNum] carries them as [Z]. *)
Inductive jsval : Type :=
| JUndef
| JNull
| JBool (b : bool)
| JNum (n : Z)
| JStr (s : string)
| JArr (l : list jsval)
| JObj (fields : list (string * jsval)).

(** Property read [o.k]: [undefined] when absent or when [o] is not an
    object; [JSON.parse] keeps the last of duplicated keys. *)
Definition get (k : string) (v : jsval) : jsval :=
  match v with
  | JObj fs =>
      match find (fun kv => String.eqb (fst kv) k) (rev fs) with
      | Some (_, x) => x
      | None => JUndef
      end
  | _ => JUndef
  end.

(** JavaScript truthiness. *)
Definition truthy (v : jsval) : bool :=
  match v with
  | JUndef | JNull => false
  | JBool b => b
  | JNum n => negb (Z.eqb n 0)
  | JStr s => negb (String.eqb s "")
  | JArr _ | JObj _ => true
  end.

(** Decimal rendering of an integer, as [String(n)] does (for the integers
    below [10^21] in magnitude that occur as ids; larger ones JavaScript
    prints with an exponent). *)
Definition z_to_string (n : Z) : string :=
  NilZero.string_of_int (Z.to_int n).

(** [a.join(",")]. *)
Fixpoint join_comma (l : list string) : string :=
  match l with
  | [] => ""
  | [x] => x
  | x :: r => x ++ "," ++ join_comma r
  end.

(** [String(v)]; an array is rendered as [v.join(",")], where [null] and
    [undefined] elements become empty strings. *)
Fixpoint to_String (v : jsval) : string :=
  match v with
  | JUndef => "undefined"
  | JNull => "null"
  | JBool true => "true"
  | JBool false => "false"
  | JNum n => z_to_string n
  | JStr s => s
  | JArr l =>
      join_comma ((fix elems (l : list jsval) : list string :=
                     match l with
                     | [] => []
                     | x :: r =>
                         match x with
                         | JUndef | JNull => ""
                         | _ => to_String x
                         end :: elems r
                     end) l)
  | JObj _ => "[object Object]"
  end.

(** JavaScript white space and line terminators among the characters
    modelled here (string characters are UTF-16 code units below 256): tab,
    line feed, vertical tab, form feed, carriage return, space and the
    no-break space. *)
Definition is_ws (c : ascii) : bool :=
  let n := nat_of_ascii c in
  (Nat.leb 9 n && Nat.leb n 13) || Nat.eqb n 32 || Nat.eqb n 160.

Fixpoint drop_ws (s : string) : string :=
  match s with
  | EmptyString => EmptyString
  | String c r => if is_ws c then drop_ws r else s
  end.

Definition trim (s : string) : string :=
  string_of_list_ascii (rev (list_ascii_of_string
    (drop_ws (string_of_list_ascii (rev (list_ascii_of_string (drop_ws s))))))).

(** A JavaScript number other than NaN: a finite value or one of the
    infinities.  Finite values are exact rationals, as everywhere in this
    development (rounding to double precision and the sign of zero are not
    modelled); [None] stands for NaN wherever a conversion can give it. *)
Inductive jsnum : Type :=
| NumFin (q : Q)
| NumPosInf
| NumNegInf.

Definition jsnum_neg (n : jsnum) : jsnum :=
  match n with
  | NumFin q => NumFin (- q)%Q
  | NumPosInf => NumNegInf
  | NumNegInf => NumPosInf
  end.

(** The range of double precision: a numeric literal of magnitude at least
    [2^1024 - 2^970] reads as an infinity, one of magnitude at most
    [2^-1075] as zero. *)
Definition to_double_range (q : Q) : jsnum :=
  if Qle_bool (inject_Z (2 ^ 1024 - 2 ^ 970)%Z) (Qabs q) then
    (if Qle_bool 0 q then NumPosInf else NumNegInf)
  else if Qle_bool (Qabs q) (1 # (2 ^ 1075)%positive) then NumFin 0
  else NumFin q.

(** The value of a digit character: [0-9], [a-f] and [A-F]. *)
Definition digit_value (c : ascii) : option Z :=
  let n := nat_of_ascii c in
  if Nat.leb 48 n && Nat.leb n 57 then Some (Z.of_nat (n - 48))
  else if Nat.leb 97 n && Nat.leb n 102 then Some (Z.of_nat (n - 87))
  else if Nat.leb 65 n && Nat.leb n 70 then Some (Z.of_nat (n - 55))
  else None.

Definition digit_in (base : Z) (c : ascii) : option Z :=
  match digit_value c with
  | Some d => if Z.ltb d base then Some d else None
  | None => None
  end.

Fixpoint digits_acc (base acc : Z) (l : list ascii) : option Z :=
  match l with
  | [] => Some acc
  | c :: r =>
      match digit_in base c with
      | Some d => digits_acc base (acc * base + d) r
      | None => None
      end
  end.

(** The value of a non-empty run of digits of [base]. *)
Definition digits_value (base : Z) (l : list ascii) : option Z :=
  match l with
  | [] => None
  | _ => digits_acc base 0 l
  end.

(** The longest prefix of decimal digits, and the rest. *)
Fixpoint span_decimal (l : list ascii) : list ascii * list ascii :=
  match l with
  | [] => ([], [])
  | c :: r =>
      match digit_in 10 c with
      | Some _ => let (d, rest) := span_decimal r in (c :: d, rest)
      | None => ([], l)
      end
  end.

(** [ExponentPart] (absent: 0): [e] or [E], an optional sign, digits. *)
Definition exponent_part (l : list ascii) : option Z :=
  match l with
  | [] => Some 0%Z
  | e :: r =>
      if Ascii.eqb e "e" || Ascii.eqb e "E" then
        match r with
        | [] => None
        | sg :: d =>
            if Ascii.eqb sg "+" then digits_value 10 d
            else if Ascii.eqb sg "-" then option_map Z.opp (digits_value 10 d)
            else digits_value 10 r
        end
      else None
  end.

(** [m * 10^k]. *)
Definition scale10 (m k : Z) : Q :=
  if Z.leb 0 k then inject_Z (m * 10 ^ k) else m # Z.to_pos (10 ^ (- k)).

(** [StrUnsignedDecimalLiteral]: [Infinity], or digits with an optional
    fraction ([1.], [.5], [1.5]) and an optional exponent. *)
Definition unsigned_decimal (l : list ascii) : option jsnum :=
  if String.eqb (string_of_list_ascii l) "Infinity" then Some NumPosInf else
  let (ip, r1) := span_decimal l in
  let (fp, r2) :=
    match r1 with
    | c :: r => if Ascii.eqb c "." then span_decimal r else ([], r1)
    | [] => ([], [])
    end in
  match digits_value 10 (ip ++ fp), exponent_part r2 with
  | Some m, Some e => Some (to_double_range (scale10 m (e - Z.of_nat (List.length fp))))
  | _, _ => None
  end.

(** [NonDecimalIntegerLiteral] after its [0x], [0o] or [0b] prefix. *)
Definition non_decimal (base : Z) (l : list ascii) : option jsnum :=
  option_map (fun m => to_double_range (inject_Z m)) (digits_value base l).

(** [StringNumericLiteral] without its surrounding white space: empty (0), a
    signed or unsigned decimal literal, or an unsigned hexadecimal, octal or
    binary integer. *)
Definition numeric_literal (l : list ascii) : option jsnum :=
  match l with
  | [] => Some (NumFin 0)
  | c :: r =>
      if Ascii.eqb c "+" then unsigned_decimal r
      else if Ascii.eqb c "-" then option_map jsnum_neg (unsigned_decimal r)
      else if Ascii.eqb c "0" then
        match r with
        | x :: d =>
            if Ascii.eqb x "x" || Ascii.eqb x "X" then non_decimal 16 d
            else if Ascii.eqb x "o" || Ascii.eqb x "O" then non_decimal 8 d
            else if Ascii.eqb x "b" || Ascii.eqb x "B" then non_decimal 2 d
            else unsigned_decimal l
        | [] => unsigned_decimal l
        end
      else unsigned_decimal l
  end.

(** [Number(s)] on a string ([StringToNumber]); [None] is NaN. *)
Definition string_to_number (s : string) : option jsnum :=
  numeric_literal (list_ascii_of_string (trim s)).

(** [Number(v)]; [None] is NaN.  An array converts through its string
    [v.join(",")], an object through ["[object Object]"]. *)
Definition to_Number (v : jsval) : option jsnum :=
  match v with
  | JUndef => None
  | JNull => Some (NumFin 0)
  | JBool b => Some (NumFin (if b then 1 else 0))
  | JNum n => Some (NumFin (inject_Z n))
  | JStr s => string_to_number s
  | JArr _ => string_to_number (to_String v)
  | JObj _ => None
  end.

Definition is_NaN (n : option jsnum) : bool :=
  match n with None => true | Some _ => false end.

Definition is_number (v : jsval) : bool :=
  match v with JNum _ => true | _ => false end.

(** Strict equality with a string literal ([===]). *)
Definition str_eq (v : jsval) (s : string) : bool :=
  match v with JStr s' => String.eqb s' s | _ => false end.

End Js.

(* ------------------------------------------------------------------ *)
(** ** The collaboration relay *)

Module Relay.
Import Js.
Local Open Scope string_scope.

(** A registered connection: [ws] is identified by a connection number. *)
Record user := mkUser { conn : nat; userId : string; rooms : list string }.

(** Observable effects of handling one message: calls into the persistence
    adapter (the prisma client), frames sent on a socket, log lines. *)
Inductive effect : Type :=
| DbCreate (roomId : option jsnum) (message : jsval) (userId : string)
| DbUpdate (id : option jsnum) (shape : jsval)
| DbDelete (id : option jsnum)
| Send (conn : nat) (payload : jsval)
| Log.

(** Outcome of the awaited persistence call: [db_ok] says whether it
    resolved, [db_new_id] is the id of a created row. *)
Record db_outcome := mkDb { db_ok : bool; db_new_id : Z }.

Definition is_persist (e : effect) : bool :=
  match e with DbCreate _ _ _ | DbUpdate _ _ | DbDelete _ => true | _ => false end.

Definition is_send (e : effect) : bool :=
  match e with Send _ _ => true | _ => false end.

Definition mem_string (s : string) (l : list string) : bool :=
  existsb (String.eqb s) l.

(** [broadcastToRoom]: one frame per registered user whose [rooms] includes
    the room, in registration order. *)
Definition broadcastToRoom (users : list user) (roomId : string) (payload : jsval)
    : list effect :=
  flat_map (fun u => if mem_string roomId (rooms u) then [Send (conn u) payload] else [])
    users.

(** [user.rooms.push(r)] / [user.rooms = user.rooms.filter(...)] on the
    user registered under connection [c]. *)
Definition update_rooms (c : nat) (f : list string -> list string) (users : list user)
    : list user :=
  map (fun u => if Nat.eqb (conn u) c then mkUser (conn u) (userId u) (f (rooms u)) else u)
    users.

Definition find_user (c : nat) (users : list user) : option user :=
  find (fun u => Nat.eqb (conn u) c) users.

Definition obj (fs : list (string * jsval)) : jsval := JObj fs.

(** The [ws.on("message")] handler of [apps/ws-backend/src/index.ts], for
    the connection [c] whose user id is [uid], applied to a parsed message.
    The awaited persistence call is taken to resolve as [db] says. *)
Definition handle_index (c : nat) (uid : string) (db : db_outcome)
    (msg : jsval) (users : list user) : list user * list effect :=
  let type := get "type" msg in
  if negb (truthy type) then (users, []) else
  if str_eq type "join_room" then
    (update_rooms c (fun rs => app rs [to_String (get "roomId" msg)]) users, [Log])
  else if str_eq type "leave_room" then
    (update_rooms c (filter (fun r => negb (String.eqb r (to_String (get "roomId" msg)))))
       users, [Log])
  else if str_eq type "chat" then
    let roomId := get "roomId" msg in
    let tempId := get "tempId" msg in
    let content :=
      if truthy (get "shape" msg) then obj [("shape", get "shape" msg)]
      else obj [("message", get "message" msg)] in
    let create := DbCreate (to_Number roomId) content uid in
    if db_ok db then
      let shapeObj := if truthy (get "shape" content) then get "shape" content else JNull in
      (users, create :: Log ::
         broadcastToRoom users (to_String roomId)
           (obj [("type", JStr "chat"); ("id", JNum (db_new_id db));
                 ("tempId", tempId); ("shape", shapeObj); ("roomId", roomId)]))
    else (users, [create; Log])
  else if str_eq type "update" then
    let roomId := get "roomId" msg in
    let shapeId := get "id" msg in
    let shape := get "shape" msg in
    let upd := DbUpdate (to_Number shapeId) shape in
    if db_ok db then
      (users, upd :: Log ::
         broadcastToRoom users (to_String roomId)
           (obj [("type", JStr "update"); ("id", shapeId); ("shape", shape);
                 ("roomId", roomId)]))
    else (users, [upd; Log])
  else if str_eq type "delete" then
    let roomId := get "roomId" msg in
    let shapeId := get "id" msg in
    if is_NaN (to_Number shapeId) then (users, [Log])
    else
      (users, DbDelete (to_Number shapeId) :: Log ::
         broadcastToRoom users (to_String roomId)
           (obj [("type", JStr "delete"); ("id", shapeId); ("roomId", roomId)]))
  else (users, [Log]).

Section Part007.

(** [JSON.parse] on a string: on the stored chat [message] and on a
    string-valued [shape] of an [update]; [None] when it throws. *)
Variable json_parse : string -> option jsval.

(** The message handler of [unnamed/part_007]. *)
Definition handle_007 (c : nat) (uid : string) (db : db_outcome)
    (msg : jsval) (users : list user) : list user * list effect :=
  let type := get "type" msg in
  if negb (truthy type) then (users, []) else
  if str_eq type "join_room" then
    (update_rooms c (fun rs => app rs [to_String (get "roomId" msg)]) users, [Log])
  else if str_eq type "leave_room" then
    (update_rooms c (filter (fun r => negb (String.eqb r (to_String (get "roomId" msg)))))
       users, [Log])
  else if str_eq type "chat" then
    let roomId := get "roomId" msg in
    let tempId := if truthy (get "tempId" msg) then get "tempId" msg else JNull in
    let message :=
      if truthy (get "shape" msg) then Some (obj [("shape", get "shape" msg)])
      else if truthy (get "message" msg) then Some (get "message" msg)
      else None in
    match message with
    | None => (users, [Log])
    | Some m =>
        let create := DbCreate (to_Number roomId) m uid in
        if db_ok db then
          (* [JSON.parse(message).shape || null]: a string message is parsed,
             any other value was stored as its [JSON.stringify]. *)
          let parsed := match m with JStr s => json_parse s | v => Some v end in
          let shapeObj :=
            match parsed with
            | Some p => if truthy (get "shape" p) then get "shape" p else JNull
            | None => JNull
            end in
          (users, create :: Log ::
             broadcastToRoom users (to_String roomId)
               (obj [("type", JStr "chat"); ("id", JNum (db_new_id db));
                     ("tempId", tempId); ("shape", shapeObj); ("roomId", roomId)]))
        else (users, [create; Log])
    end
  else if str_eq type "update" then
    let roomId := get "roomId" msg in
    let shapeId := get "id" msg in
    let shape :=
      match get "shape" msg with
      | JStr s => match json_parse s with Some v => v | None => JStr s end
      | v => v
      end in
    (* [console.error] when the string [shape] does not parse *)
    let parse_err :=
      match get "shape" msg with
      | JStr s => match json_parse s with Some _ => [] | None => [Log] end
      | _ => []
      end in
    let upd := DbUpdate (to_Number shapeId) shape in
    if db_ok db then
      (users, app parse_err (upd :: Log ::
         broadcastToRoom users (to_String roomId)
           (obj [("type", JStr "update"); ("id", shapeId); ("shape", shape);
                 ("roomId", roomId)])))
    else (users, app parse_err [upd; Log])
  else if str_eq type "delete" then
    let roomId := get "roomId" msg in
    let shapeId := get "id" msg in
    let persist :=
      if negb (is_number shapeId) && is_NaN (to_Number shapeId) then [Log]
      else [DbDelete (to_Number shapeId); Log] in
    (users, app persist
       (broadcastToRoom users (to_String roomId)
          (obj [("type", JStr "delete"); ("id", shapeId); ("roomId", roomId)])))
  else (users, [Log]).

End Part007.

(** The [reorder] frame a client sends ([Game.sendReorder]). *)
Definition reorder_msg (roomId : string) (order : list string) : jsval :=
  obj [("type", JStr "reorder"); ("order", JArr (map JStr order)); ("roomId", JStr roomId)].

Definition delete_msg (roomId : string) (id : jsval) : jsval :=
  obj [("type", JStr "delete"); ("id", id); ("roomId", JStr roomId)].

End Relay.

(* ------------------------------------------------------------------ *)
(** ** Shapes ([Shape] in [draw/Game.ts], [TextBox] in [draw/tools.ts]) *)

Module Shapes.

(** The optional [strokeWidth] / [strokeColor] every variant but [pencil]
    carries. *)
Record stroke := mkStroke { strokeWidth : option Q; strokeColor : option string }.

Inductive shape : Type :=
| Rect (x y width height : Q) (st : stroke)
| Circle (centerX centerY radius : Q) (st : stroke)
| Pencil (path : list (Q * Q)) (strokeWidth : Q) (strokeColor : string)
| Line (startX startY endX endY : Q) (st : stroke)
| Arrow (startX startY endX endY : Q) (st : stroke)
| Diamond (centerX centerY width height : Q) (cornerRadius : option Q) (st : stroke)
| Text (x y width height : Q) (text : string) (fontSize : Q) (fontFamily : string)
       (lineHeight : Q) (textAlign verticalAlign : string) (st : stroke).

End Shapes.

(* ------------------------------------------------------------------ *)
(** ** The client shape store ([Game] in [draw/Game.ts]) *)

Module Store.
Import Shapes.
Local Open Scope nat_scope.
Local Open Scope list_scope.

(** [StoredShape]: [tempId] is optional. *)
Record stored := mkStored { sid : string; sshape : shape; stempId : option string }.

(** The part of a [Game] the store operations read and write. *)
Record game := mkGame { existingShapes : list stored; selectedShapeId : option string }.

(** Socket frames after [JSON.parse]; ids have gone through [String(...)]. *)
Inductive incoming : Type :=
| InChat (id : string) (shape : shape) (tempId : option string)
| InDelete (id : string)
| InReorder (order : list string)
| InUpdate (id : string) (shape : shape)
| InOther.

(** Frames the store sends. *)
Inductive outgoing : Type :=
| OutChat (tempId : string) (shape : shape)
| OutReorder (order : list string).

(** [Array.prototype.findIndex]. *)
Fixpoint findIndex {A} (p : A -> bool) (l : list A) : option nat :=
  match l with
  | [] => None
  | x :: r => if p x then Some 0 else option_map S (findIndex p r)
  end.

(** [arr[i] = x] for an index [findIndex] returned (in range). *)
Fixpoint set_nth {A} (i : nat) (x : A) (l : list A) : list A :=
  match l, i with
  | [], _ => []
  | _ :: r, 0 => x :: r
  | y :: r, S j => y :: set_nth j x r
  end.

(** [arr.splice(i, 1)]: the removed element and the rest. *)
Fixpoint splice1 {A} (i : nat) (l : list A) : option A * list A :=
  match l, i with
  | [], _ => (None, [])
  | x :: r, 0 => (Some x, r)
  | y :: r, S j => let (o, r') := splice1 j r in (o, y :: r')
  end.

Definition opt_str_eqb (a b : option string) : bool :=
  match a, b with
  | Some x, Some y => String.eqb x y
  | None, None => true
  | _, _ => false
  end.

(** The ephemeral id minted at gesture end: [`pending-${Date.now()}`]. *)
Definition pending_id (now : Z) : string := ("pending-" ++ Js.z_to_string now)%string.

(** End of a creation gesture ([mouseUpHandler], and the text box [blur]
    listener): the new shape is appended with [id = tempId = pending-now]
    and a [chat] frame is sent. *)
Definition add_pending (now : Z) (sh : shape) (g : game) : game * list outgoing :=
  let pendingId := pending_id now in
  (mkGame (existingShapes g ++ [mkStored pendingId sh (Some pendingId)]) (selectedShapeId g),
   [OutChat pendingId sh]).

(** The [chat] branch of [initHandlers]: reconciliation of a pending entry. *)
Definition on_chat (serverId : string) (serverShape : shape) (tempId : option string)
    (g : game) : game :=
  let shapes := existingShapes g in
  let fallback :=
    if existsb (fun s => String.eqb (sid s) serverId) shapes then shapes
    else shapes ++ [mkStored serverId serverShape None] in
  let shapes' :=
    match tempId with
    | Some t =>
        if String.eqb t ""%string then fallback else
        match findIndex (fun s => opt_str_eqb (stempId s) (Some t) || String.eqb (sid s) t)
                shapes with
        | Some idx => set_nth idx (mkStored serverId serverShape None) shapes
        | None => fallback
        end
    | None => fallback
    end in
  mkGame shapes' (selectedShapeId g).

(** The [delete] branch. *)
Definition on_delete (deletedId : string) (g : game) : game :=
  mkGame (filter (fun s => negb (String.eqb (sid s) deletedId)) (existingShapes g))
    (match selectedShapeId g with
     | Some x => if String.eqb x deletedId then None else Some x
     | None => None
     end).

(** [new Map(existingShapes.map(s => [s.id, s.shape])).get(id)]: the shape
    of the last entry with that id. *)
Definition idTo_get (shapes : list stored) (id : string) : option shape :=
  option_map sshape (find (fun s => String.eqb (sid s) id) (rev shapes)).

(** The [reorder] branch: first loop over [order], second loop over the
    store. *)
Definition reorder_first (shapes : list stored) (order : list string) : list stored :=
  fold_left (fun newList id =>
               match idTo_get shapes id with
               | Some sh => newList ++ [mkStored id sh None]
               | None => newList
               end) order [].

Definition reorder_append (shapes : list stored) (newList : list stored) : list stored :=
  fold_left (fun newList s =>
               if existsb (fun x => String.eqb (sid x) (sid s)) newList then newList
               else newList ++ [s]) shapes newList.

Definition applyRemoteReorder (order : list string) (shapes : list stored) : list stored :=
  reorder_append shapes (reorder_first shapes order).

Definition on_reorder (order : list string) (g : game) : game :=
  mkGame (applyRemoteReorder order (existingShapes g)) (selectedShapeId g).

(** The [update] branch: [existingShapes[idx].shape = shape] keeps the
    entry's [id] and [tempId]. *)
Definition on_update (id : string) (sh : shape) (g : game) : game :=
  let shapes := existingShapes g in
  match findIndex (fun s => String.eqb (sid s) id) shapes with
  | Some idx =>
      match nth_error shapes idx with
      | Some s => mkGame (set_nth idx (mkStored (sid s) sh (stempId s)) shapes)
                    (selectedShapeId g)
      | None => g
      end
  | None => mkGame (shapes ++ [mkStored id sh None]) (selectedShapeId g)
  end.

(** [socket.onmessage]. *)
Definition on_message (m : incoming) (g : game) : game :=
  match m with
  | InChat id sh t => on_chat id sh t g
  | InDelete id => on_delete id g
  | InReorder order => on_reorder order g
  | InUpdate id sh => on_update id sh g
  | InOther => g
  end.

(** [bringToFront] followed by [sendReorder]. *)
Definition bringToFront (id : string) (g : game) : game * list outgoing :=
  match findIndex (fun s => String.eqb (sid s) id) (existingShapes g) with
  | None => (g, [])
  | Some idx =>
      match splice1 idx (existingShapes g) with
      | (Some item, rest) =>
          let shapes' := rest ++ [item] in
          (mkGame shapes' (selectedShapeId g), [OutReorder (map sid shapes')])
      | (None, _) => (g, [])
      end
  end.

(** The store operations a session goes through. *)
Inductive op : Type :=
| OpAddPending (now : Z) (sh : shape)
| OpMessage (m : incoming)
| OpBringToFront (id : string).

Definition step (g : game) (o : op) : game :=
  match o with
  | OpAddPending now sh => fst (add_pending now sh g)
  | OpMessage m => on_message m g
  | OpBringToFront id => fst (bringToFront id g)
  end.

Definition run (ops : list op) (g : game) : game := fold_left step ops g.

Definition ids (g : game) : list string := map sid (existingShapes g).

End Store.

(* ------------------------------------------------------------------ *)
(** ** Tool geometry: [draw/resize.ts] ([unnamed/part_004]),
       [draw/select.ts] and [draw/pencil.ts] ([unnamed/part_006]) *)

Module Geometry.
Import Shapes.
Local Open Scope Q_scope.

Definition Qltb (a b : Q) : bool := negb (Qle_bool b a).

(** [a || d] on a number: [d] when [a] is 0. *)
Definition qor (a d : Q) : Q := if Qeq_bool a 0 then d else a.

Record box := mkBox { bx : Q; by_ : Q; bw : Q; bh : Q }.

Inductive handle := HNW | HN | HNE | HE | HSE | HS | HSW | HW.

(** [Object.keys(handles)] order. *)
Definition all_handles : list handle := [HNW; HN; HNE; HE; HSE; HS; HSW; HW].

(** Minimum and maximum coordinates of a non-empty path; the source starts
    its loop from [Infinity]/[-Infinity], which the first point replaces. *)
Definition path_bounds (p0 : Q * Q) (rest : list (Q * Q)) : Q * Q * Q * Q :=
  fold_left (fun acc p =>
               let '(minx, miny, maxx, maxy) := acc in
               (Qmin minx (fst p), Qmin miny (snd p), Qmax maxx (fst p), Qmax maxy (snd p)))
    rest (fst p0, snd p0, fst p0, snd p0).

(** [ResizeTool.bbox]; [bboxOf] in [select.ts] is the same function. *)
Definition bbox (sh : shape) : box :=
  match sh with
  | Rect x y w h _ => mkBox x y w h
  | Circle cx cy r _ => let r := Qabs r in mkBox (cx - r) (cy - r) (2 * r) (2 * r)
  | Diamond cx cy w h _ _ => mkBox (cx - w / 2) (cy - h / 2) w h
  | Text x y w h _ _ _ _ _ _ _ => mkBox x y w h
  | Line x1 y1 x2 y2 _ | Arrow x1 y1 x2 y2 _ =>
      mkBox (Qmin x1 x2) (Qmin y1 y2) (Qabs (x2 - x1)) (Qabs (y2 - y1))
  | Pencil [] _ _ => mkBox 0 0 0 0
  | Pencil (p0 :: rest) _ _ =>
      let '(minx, miny, maxx, maxy) := path_bounds p0 rest in
      mkBox minx miny (maxx - minx) (maxy - miny)
  end.

Definition minSize : Q := 6.

Definition left_family (h : handle) : bool :=
  match h with HNW | HW | HSW => true | _ => false end.
Definition top_family (h : handle) : bool :=
  match h with HNW | HN | HNE => true | _ => false end.
Definition right_family (h : handle) : bool :=
  match h with HNE | HE | HSE => true | _ => false end.

(** [computeNewBBoxFromHandle]. *)
Definition computeNewBBoxFromHandle (o : box) (h : handle) (dx dy : Q) : box :=
  let left_ := bx o in
  let top_ := by_ o in
  let right_ := bx o + bw o in
  let bottom_ := by_ o + bh o in
  let '(left_, top_, right_, bottom_) :=
    match h with
    | HNW => (left_ + dx, top_ + dy, right_, bottom_)
    | HN => (left_, top_ + dy, right_, bottom_)
    | HNE => (left_, top_ + dy, right_ + dx, bottom_)
    | HE => (left_, top_, right_ + dx, bottom_)
    | HSE => (left_, top_, right_ + dx, bottom_ + dy)
    | HS => (left_, top_, right_, bottom_ + dy)
    | HSW => (left_ + dx, top_, right_, bottom_ + dy)
    | HW => (left_ + dx, top_, right_, bottom_)
    end in
  let '(left_, right_) :=
    if Qltb (right_ - left_) minSize then
      if left_family h then (right_ - minSize, right_) else (left_, left_ + minSize)
    else (left_, right_) in
  let '(top_, bottom_) :=
    if Qltb (bottom_ - top_) minSize then
      if top_family h then (bottom_ - minSize, bottom_) else (top_, top_ + minSize)
    else (top_, bottom_) in
  mkBox left_ top_ (right_ - left_) (bottom_ - top_).

(** [s.text.split(/\s+/)]: pieces between maximal runs of white space (a
    leading or trailing run yields an empty piece). *)
Fixpoint split_ws_aux (s : string) (cur : string) (prev_ws : bool) : list string :=
  match s with
  | EmptyString => [cur]
  | String c r =>
      if Js.is_ws c then
        if prev_ws then split_ws_aux r cur true else cur :: split_ws_aux r EmptyString true
      else split_ws_aux r (cur ++ String c EmptyString)%string false
  end.

Definition split_ws (s : string) : list string := split_ws_aux s EmptyString false.

(** The state a resize gesture keeps ([startResize] snapshots the shape). *)
Record resize_state := mkResize {
  activeHandle : option handle;
  startPointer : option (Q * Q);
  originalShape : option shape }.

(** Moving an endpoint of a line or arrow by the pointer delta. *)
Definition move_endpoint (h : handle) (o : box) (x1 y1 x2 y2 dx dy : Q)
    : Q * Q * Q * Q :=
  if left_family h then (x1 + dx, y1 + dy, x2, y2)
  else if right_family h then (x1, y1, x2 + dx, y2 + dy)
  else if Qltb (Qabs (y1 - by_ o)) (Qabs (y2 - by_ o)) then (x1 + dx, y1 + dy, x2, y2)
  else (x1, y1, x2 + dx, y2 + dy).

Section Resize.

(** [ctx.measureText(line).width] with [ctx.font = `${fontSize}px ${family}`]. *)
Variable measureText : Q -> string -> string -> Q.

(** The word-wrapping loop of the text branch: the number of lines. *)
Definition wrap_lines (fontSize : Q) (family : string) (width : Q) (words : list string)
    : nat :=
  let '(lines, currentLine) :=
    fold_left (fun acc word =>
                 let '(lines, currentLine) := acc in
                 let testLine :=
                   if String.eqb currentLine "" then word
                   else (currentLine ++ " " ++ word)%string in
                 if Qltb width (measureText fontSize family testLine)
                    && negb (String.eqb currentLine "")
                 then (S lines, word)
                 else (lines, testLine))
      words (O, EmptyString) in
  if String.eqb currentLine "" then lines else S lines.

(** [applyResize]; [None] is [null].  Divisions are those of [Q], where
    [x / 0 = 0]: the text branch divides by the original box height. *)
Definition applyResize (st : resize_state) (pointerX pointerY : Q) : option shape :=
  match activeHandle st, startPointer st, originalShape st with
  | Some h, Some (sx, sy), Some orig =>
      let dx := pointerX - sx in
      let dy := pointerY - sy in
      let o := bbox orig in
      let nb := computeNewBBoxFromHandle o h dx dy in
      match orig with
      | Rect _ _ _ _ stk =>
          Some (Rect (bx nb) (by_ nb) (Qmax 6 (bw nb)) (Qmax 6 (bh nb)) stk)
      | Circle _ _ _ stk =>
          let size := Qmax (Qmax (bw nb) (bh nb)) 6 in
          Some (Circle (bx nb + bw nb / 2) (by_ nb + bh nb / 2) (Qmax 3 (size / 2)) stk)
      | Diamond _ _ _ _ cr stk =>
          Some (Diamond (bx nb + bw nb / 2) (by_ nb + bh nb / 2)
                  (Qmax 6 (bw nb)) (Qmax 6 (bh nb)) cr stk)
      | Line x1 y1 x2 y2 stk =>
          let '(x1', y1', x2', y2') := move_endpoint h o x1 y1 x2 y2 dx dy in
          Some (Line x1' y1' x2' y2' stk)
      | Arrow x1 y1 x2 y2 stk =>
          let '(x1', y1', x2', y2') := move_endpoint h o x1 y1 x2 y2 dx dy in
          Some (Arrow x1' y1' x2' y2' stk)
      | Text _ _ _ _ text fs fam lh ta va stk =>
          let width := Qmax 30 (bw nb) in
          let fs' :=
            match h with
            | HE | HW => fs
            | _ => Qmax 8 (qor fs 16 * (bh nb / bh o))
            end in
          let height :=
            if String.eqb text "" then Qmax 20 (bh nb)
            else inject_Z (Z.of_nat (wrap_lines fs' fam width (split_ws text)))
                 * (qor fs' 12 * qor lh (12 # 10)) in
          Some (Text (bx nb) (by_ nb) width height text fs' fam lh ta va stk)
      | Pencil path w c =>
          let origW := qor (bw o) 1 in
          let origH := qor (bh o) 1 in
          let scaleX := bw nb / origW in
          let scaleY := bh nb / origH in
          let cx := bx o + bw o / 2 in
          let cy := by_ o + bh o / 2 in
          let newCx := bx nb + bw nb / 2 in
          let newCy := by_ nb + bh nb / 2 in
          Some (Pencil (map (fun p => ((fst p - cx) * scaleX + newCx,
                                       (snd p - cy) * scaleY + newCy)) path) w c)
      end
  | _, _, _ => None
  end.

End Resize.

(** [Math.hypot(dx, dy) <= r], decided exactly: the square root is
    non-negative, so the comparison holds iff [r >= 0] and
    [dx^2 + dy^2 <= r^2]. *)
Definition hypot_le (dx dy r : Q) : bool :=
  Qle_bool 0 r && Qle_bool (dx * dx + dy * dy) (r * r).

(** [pointInShape] of [select.ts] ([padding] defaults to 6). *)
Definition pointInShape (x y : Q) (sh : shape) (padding : Q) : bool :=
  match sh with
  | Rect sx sy w h _ | Text sx sy w h _ _ _ _ _ _ _ =>
      Qle_bool (sx - padding) x && Qle_bool x (sx + w + padding)
      && Qle_bool (sy - padding) y && Qle_bool y (sy + h + padding)
  | Circle cx cy r _ => hypot_le (x - cx) (y - cy) (Qabs r + padding)
  | Diamond cx cy w h _ _ =>
      let w' := w / 2 + padding in
      let h' := h / 2 + padding in
      Qle_bool (cx - w') x && Qle_bool x (cx + w')
      && Qle_bool (cy - h') y && Qle_bool y (cy + h')
  | Line x1 y1 x2 y2 stk | Arrow x1 y1 x2 y2 stk =>
      let A := x - x1 in let B := y - y1 in let C := x2 - x1 in let D := y2 - y1 in
      let dot := A * C + B * D in
      let len2 := C * C + D * D in
      let param := if Qeq_bool len2 0 then -1 else dot / len2 in
      let '(xx, yy) :=
        if Qltb param 0 then (x1, y1)
        else if Qltb 1 param then (x2, y2)
        else (x1 + param * C, y1 + param * D) in
      hypot_le (x - xx) (y - yy)
        (padding + match strokeWidth stk with Some sw => sw | None => 4 end)
  | Pencil [] _ _ => false
  | Pencil (p0 :: rest) _ _ =>
      let '(minx, miny, maxx, maxy) := path_bounds p0 rest in
      Qle_bool (minx - padding) x && Qle_bool x (maxx + padding)
      && Qle_bool (miny - padding) y && Qle_bool y (maxy + padding)
  end.

Definition default_padding : Q := 6.

(** Taxicab-normalised containment for a diamond, as the selection spec
    describes it (and as the eraser's [isPointInShape] computes it, there
    without padding). *)
Definition diamond_taxicab_inside (x y cx cy w h padding : Q) : bool :=
  Qle_bool (Qabs (x - cx) / (w / 2 + padding) + Qabs (y - cy) / (h / 2 + padding)) 1.

End Geometry.

(** [SelectTool.findAt]: topmost-first scan, handles before interior. *)
Module Select.
Import Shapes Geometry Store.
Local Open Scope Q_scope.

Inductive part := Inside | Handle (h : handle).

(** [handlesFor]. *)
Definition handlesFor (b : box) : list (handle * (Q * Q)) :=
  let cx := bx b + bw b / 2 in
  let cy := by_ b + bh b / 2 in
  [(HNW, (bx b, by_ b)); (HN, (cx, by_ b)); (HNE, (bx b + bw b, by_ b));
   (HE, (bx b + bw b, cy)); (HSE, (bx b + bw b, by_ b + bh b)); (HS, (cx, by_ b + bh b));
   (HSW, (bx b, by_ b + bh b)); (HW, (bx b, cy))].

Definition selectHandleSize : Q := 10.

Definition hit_handle (x y : Q) (sh : shape) : option handle :=
  let half := selectHandleSize / 2 in
  option_map fst
    (find (fun kh => Qle_bool (Qabs (x - fst (snd kh))) half
                     && Qle_bool (Qabs (y - snd (snd kh))) half)
       (handlesFor (bbox sh))).

Definition findAt (x y : Q) (stored : list stored) : option (string * part) :=
  fold_left (fun acc s =>
               match acc with
               | Some _ => acc
               | None =>
                   match hit_handle x y (sshape s) with
                   | Some h => Some (sid s, Handle h)
                   | None =>
                       if pointInShape x y (sshape s) default_padding
                       then Some (sid s, Inside) else None
                   end
               end) (rev stored) None.

End Select.

(* ------------------------------------------------------------------ *)
(** ** Freehand strokes ([Pencil] and [simplifyRDP] in [draw/pencil.ts]) *)

Module Freehand.
Local Open Scope Q_scope.
Import Geometry.

Definition point : Type := (Q * Q)%type.

Definition sq (q : Q) : Q := q * q.

(** Distances are kept as their squares, which are exact in [Q]; every
    comparison the source makes is between non-negative distances, or
    between a distance and [epsilon], and squaring preserves those. *)
Definition pointDistance2 (a b : point) : Q := sq (fst a - fst b) + sq (snd a - snd b).

(** [lineDistance(p, a, b)] squared: [den === 0] iff the chord's squared
    length is 0. *)
Definition lineDistance2 (p a b : point) : Q :=
  let den2 := sq (fst b - fst a) + sq (snd b - snd a) in
  if Qeq_bool den2 0 then pointDistance2 p a
  else sq ((fst b - fst a) * (snd a - snd p) - (fst a - fst p) * (snd b - snd a)) / den2.

(** The [for (let i = 1; i < points.length - 1; i++)] loop over the interior
    points; returns [(index, dmax^2)]. *)
Fixpoint scan (i : nat) (mid : list point) (a b : point) (index : nat) (dmax2 : Q)
    : nat * Q :=
  match mid with
  | [] => (index, dmax2)
  | p :: r =>
      let d2 := lineDistance2 p a b in
      if Qltb dmax2 d2 then scan (S i) r a b i d2 else scan (S i) r a b index dmax2
  end.

(** [dmax > epsilon] for [dmax >= 0]. *)
Definition exceeds (dmax2 epsilon : Q) : bool :=
  Qltb epsilon 0 || Qltb (epsilon * epsilon) dmax2.

(** [simplifyRDP] with a recursion budget; [None] means the budget ran out
    (the source would recurse forever, as it does for a negative
    [epsilon]). *)
Fixpoint simplifyRDP_fuel (fuel : nat) (points : list point) (epsilon : Q)
    : option (list point) :=
  if Nat.ltb (List.length points) 3 then Some points else
  match fuel with
  | O => None
  | S f =>
      let a := hd (0, 0) points in
      let b := last points (0, 0) in
      let '(index, dmax2) := scan 1 (firstn (List.length points - 2) (tl points)) a b 0 0 in
      if exceeds dmax2 epsilon then
        match simplifyRDP_fuel f (firstn (index + 1) points) epsilon with
        | Some rec1 =>
            match simplifyRDP_fuel f (skipn index points) epsilon with
            | Some rec2 => Some (removelast rec1 ++ rec2)
            | None => None
            end
        | None => None
        end
      else Some [a; b]
  end.

Definition simplifyRDP (points : list point) (epsilon : Q) : option (list point) :=
  simplifyRDP_fuel (List.length points) points epsilon.

Record pencil := mkPencil { points : list point; smoothed : option (list point) }.

Definition updateSmoothed (pts : list point) : option (list point) :=
  if Nat.ltb (List.length pts) 2 then Some pts else simplifyRDP pts (3 # 2).

(** [Pencil.addPoint]: points closer than 0.5 to the last accepted one are
    dropped. *)
Definition addPoint (x y : Q) (pc : pencil) : pencil :=
  let p := (x, y) in
  match rev (points pc) with
  | [] => let pts := [p] in mkPencil pts (updateSmoothed pts)
  | lastp :: _ =>
      if Qltb (1 # 4) (pointDistance2 lastp p)
      then let pts := points pc ++ [p] in mkPencil pts (updateSmoothed pts)
      else pc
  end.

Definition last_error {A} (l : list A) : option A := hd_error (rev l).

End Freehand.

(* ------------------------------------------------------------------ *)
(** ** Camera ([Game.setZoom] and the wheel listener) *)

Module Camera.
Local Open Scope Q_scope.

(** JavaScript numbers: the finite ones as rationals, NaN and the two
    infinities (signed zeros are not distinguished). *)
Inductive num := Fin (q : Q) | NaN | PInf | NInf.

Definition num_lt (a b : num) : bool :=
  match a, b with
  | Fin p, Fin q => Geometry.Qltb p q
  | NInf, (Fin _ | PInf) => true
  | Fin _, PInf => true
  | _, _ => false
  end.

(** [Math.min] / [Math.max] on two arguments: NaN if either is NaN. *)
Definition js_min (a b : num) : num :=
  match a, b with
  | NaN, _ | _, NaN => NaN
  | _, _ => if num_lt b a then b else a
  end.

Definition js_max (a b : num) : num :=
  match a, b with
  | NaN, _ | _, NaN => NaN
  | _, _ => if num_lt a b then b else a
  end.

Definition sign (q : Q) : comparison := Qcompare q 0.

Definition inf_of (c : comparison) : num :=
  match c with Gt => PInf | Lt => NInf | Eq => NaN end.

Definition flip (c : comparison) : comparison :=
  match c with Gt => Lt | Lt => Gt | Eq => Eq end.

Definition js_add (a b : num) : num :=
  match a, b with
  | Fin p, Fin q => Fin (p + q)
  | NaN, _ | _, NaN => NaN
  | PInf, NInf | NInf, PInf => NaN
  | PInf, _ | _, PInf => PInf
  | NInf, _ | _, NInf => NInf
  end.

Definition js_neg (a : num) : num :=
  match a with Fin p => Fin (- p) | PInf => NInf | NInf => PInf | NaN => NaN end.

Definition js_sub (a b : num) : num := js_add a (js_neg b).

Definition js_mul (a b : num) : num :=
  match a, b with
  | Fin p, Fin q => Fin (p * q)
  | NaN, _ | _, NaN => NaN
  | Fin p, PInf | PInf, Fin p => inf_of (sign p)
  | Fin p, NInf | NInf, Fin p => inf_of (flip (sign p))
  | PInf, PInf | NInf, NInf => PInf
  | PInf, NInf | NInf, PInf => NInf
  end.

Definition js_div (a b : num) : num :=
  match a, b with
  | Fin p, Fin q => if Qeq_bool q 0 then inf_of (sign p) else Fin (p / q)
  | NaN, _ | _, NaN => NaN
  | Fin _, (PInf | NInf) => Fin 0
  | PInf, Fin q => inf_of (sign q)
  | NInf, Fin q => inf_of (flip (sign q))
  | _, _ => NaN
  end.

Record camera := mkCamera { cameraX : num; cameraY : num; zoom : num }.

Definition screenToWorld (c : camera) (sx sy : num) : num * num :=
  (js_add (js_div sx (zoom c)) (cameraX c), js_add (js_div sy (zoom c)) (cameraY c)).

Definition minZ : num := Fin (1 # 10).
Definition maxZ : num := Fin 8.

(** [setZoom(newZoom, screenX?, screenY?)]. *)
Definition setZoom (newZoom : num) (screen : option (num * num)) (c : camera) : camera :=
  let newZoom := js_max minZ (js_min maxZ newZoom) in
  match screen with
  | Some (sx, sy) =>
      let '(bx, by_) := screenToWorld c sx sy in
      let c1 := mkCamera (cameraX c) (cameraY c) newZoom in
      let '(ax, ay) := screenToWorld c1 sx sy in
      mkCamera (js_add (cameraX c) (js_sub bx ax)) (js_add (cameraY c) (js_sub by_ ay)) newZoom
  | None => mkCamera (cameraX c) (cameraY c) newZoom
  end.

(** The wheel listener: zoom in by 1.12 or out by 1/1.12 about the cursor. *)
Definition wheel (deltaY : Q) (cx cy : Q) (c : camera) : camera :=
  let delta := if Geometry.Qltb deltaY 0 then Fin (112 # 100) else Fin (100 # 112) in
  setZoom (js_mul (zoom c) delta) (Some (Fin cx, Fin cy)) c.

Definition in_zoom_range (z : num) : Prop :=
  exists q, z = Fin q /\ 1 # 10 <= q /\ q <= 8.

End Camera.

(* ------------------------------------------------------------------ *)
(** ** Connection lifecycle of [apps/ws-backend/src/index.ts]:
       registration, [pong], the heartbeat and [close] *)

Module Session.
Import Relay Store.
Local Open Scope string_scope.

(** A registered [User] of [index.ts]: the fields the message handler uses
    and [lastPing] (absent until the first [Date.now()] is recorded). *)
Record puser := mkPUser { puser_user : user; lastPing : option Z }.

Definition pconn (u : puser) : nat := conn (puser_user u).

Inductive hb_effect := Terminate (conn : nat) | Ping (conn : nat).

(** [wss.on("connection")] once the token is checked: [checkUser] returned
    [userId] ([None] is [null]); a falsy id closes the socket. *)
Definition on_connection (c : nat) (userId : option string) (now : Z)
    (users : list puser) : list puser :=
  match userId with
  | Some uid =>
      if String.eqb uid "" then users
      else users ++ [mkPUser (mkUser c uid []) (Some now)]
  | None => users
  end.

(** [ws.on("pong", () => (user.lastPing = Date.now()))]. *)
Definition on_pong (c : nat) (now : Z) (users : list puser) : list puser :=
  map (fun u => if Nat.eqb (pconn u) c then mkPUser (puser_user u) (Some now) else u) users.

(** [!user.lastPing || now - user.lastPing > 45000]. *)
Definition stale (now : Z) (u : puser) : bool :=
  match lastPing u with
  | None => true
  | Some lp => Z.eqb lp 0 || Z.ltb 45000 (now - lp)
  end.

(** [users.splice(i, 1)]. *)
Definition remove_at {A} (i : nat) (l : list A) : list A := snd (splice1 i l).

(** The loop of [heartbeat], [i] counting down from [users.length]. *)
Fixpoint heartbeat_loop (now : Z) (i : nat) (users : list puser) (effs : list hb_effect)
    : list puser * list hb_effect :=
  match i with
  | O => (users, effs)
  | S k =>
      match nth_error users k with
      | Some u =>
          if stale now u
          then heartbeat_loop now k (remove_at k users) (effs ++ [Terminate (pconn u)])
          else heartbeat_loop now k users (effs ++ [Ping (pconn u)])
      | None => heartbeat_loop now k users effs
      end
  end.

Definition heartbeat (now : Z) (users : list puser) : list puser * list hb_effect :=
  heartbeat_loop now (List.length users) users [].

(** [ws.on("close")]: [findIndex] on the socket, then [splice]. *)
Definition on_close (c : nat) (users : list puser) : list puser :=
  match findIndex (fun u => Nat.eqb (pconn u) c) users with
  | Some idx => remove_at idx users
  | None => users
  end.

End Session.

(* ------------------------------------------------------------------ *)
(** ** The rest of the camera of [Game] *)

Module CameraOps.
Import Camera.
Local Open Scope Q_scope.

(** [worldToScreen]. *)
Definition worldToScreen (c : camera) (wx wy : num) : num * num :=
  (js_mul (js_sub wx (cameraX c)) (zoom c), js_mul (js_sub wy (cameraY c)) (zoom c)).

(** [setCamera]. *)
Definition setCamera (x y : num) (c : camera) : camera := mkCamera x y (zoom c).

(** The panning branch of [mouseMoveHandler]: the camera is the one saved
    at the press ([cameraStart]) moved back by the pointer's screen
    displacement since the press ([panStart]), divided by the zoom. *)
Definition pan_drag (cameraStart panStart screen : num * num) (c : camera) : camera :=
  let dx := js_sub (fst screen) (fst panStart) in
  let dy := js_sub (snd screen) (snd panStart) in
  mkCamera (js_sub (fst cameraStart) (js_div dx (zoom c)))
           (js_sub (snd cameraStart) (js_div dy (zoom c))) (zoom c).

(** [resetCamera]. *)
Definition resetCamera (c : camera) : camera := mkCamera (Fin 0) (Fin 0) (Fin 1).

(** One wheel event over the canvas: [Game.initMouseHandlers] and the
    [useEffect] of [Canvas.tsx] both register a listener on the same canvas
    element and both compute [setZoom(zoom * delta, cx, cy)]; they run in
    registration order, the [Game] one first. *)
Definition wheel_event (deltaY cx cy : Q) (c : camera) : camera :=
  wheel deltaY cx cy (wheel deltaY cx cy c).

End CameraOps.

(* ------------------------------------------------------------------ *)
(** ** Moving shapes, resize gestures, erasing and creating shapes *)

Module ShapeOps.
Import Shapes Geometry Store Camera.
Local Open Scope Q_scope.

(** [Game.translateShape]. *)
Definition translateShape (sh : shape) (dx dy : Q) : shape :=
  match sh with
  | Rect x y w h st => Rect (x + dx) (y + dy) w h st
  | Circle cx cy r st => Circle (cx + dx) (cy + dy) r st
  | Line x1 y1 x2 y2 st => Line (x1 + dx) (y1 + dy) (x2 + dx) (y2 + dy) st
  | Arrow x1 y1 x2 y2 st => Arrow (x1 + dx) (y1 + dy) (x2 + dx) (y2 + dy) st
  | Diamond cx cy w h cr st => Diamond (cx + dx) (cy + dy) w h cr st
  | Pencil path sw c => Pencil (map (fun p => (fst p + dx, snd p + dy)) path) sw c
  | Text x y w h t fs ff lh ta va st => Text (x + dx) (y + dy) w h t fs ff lh ta va st
  end.

(** [ResizeTool.startResize] (the [JSON] round trip copies the shape) and
    [ResizeTool.finishResize]. *)
Definition startResize (sh : shape) (pointerX pointerY : Q) (h : handle) : resize_state :=
  mkResize (Some h) (Some (pointerX, pointerY)) (Some sh).

Definition finishResize : resize_state := mkResize None None None.

(** [existingShapes.find((s) => s.id === id)]. *)
Definition find_stored (id : string) (shapes : list stored) : option stored :=
  find (fun s => String.eqb (sid s) id) shapes.

(** The [Eraser] the [Game] creates: [new Eraser(10)]. *)
Definition eraserSize : Q := 10.

(** JavaScript [a <= b] on numbers: false when either side is NaN. *)
Definition js_le (a b : num) : bool :=
  match a, b with
  | NaN, _ | _, NaN => false
  | _, _ => negb (num_lt b a)
  end.

(** [Eraser.isPointInShape]; [Math.sqrt(d2) <= r] is decided as
    [hypot_le] does. *)
Definition eraser_hit (size x y : Q) (sh : shape) : bool :=
  match sh with
  | Rect sx sy w h _ | Text sx sy w h _ _ _ _ _ _ _ =>
      Qle_bool sx x && Qle_bool x (sx + w) && Qle_bool sy y && Qle_bool y (sy + h)
  | Circle cx cy r _ => hypot_le (x - cx) (y - cy) (Qabs r)
  | Pencil path sw _ =>
      existsb (fun p => hypot_le (fst p - x) (snd p - y) (qor sw 2 + size)) path
  | Line x1 y1 x2 y2 _ | Arrow x1 y1 x2 y2 _ =>
      let A := x - x1 in let B := y - y1 in let C := x2 - x1 in let D := y2 - y1 in
      let dot := A * C + B * D in
      let lenSq := C * C + D * D in
      let param := if Qeq_bool lenSq 0 then -1 else dot / lenSq in
      let '(xx, yy) :=
        if Qltb param 0 then (x1, y1)
        else if Qltb 1 param then (x2, y2)
        else (x1 + param * C, y1 + param * D) in
      hypot_le (x - xx) (y - yy) (size + 3)
  | Diamond cx cy w h _ _ =>
      js_le (js_add (js_div (Fin (Qabs (x - cx))) (Fin (w / 2)))
                    (js_div (Fin (Qabs (y - cy))) (Fin (h / 2)))) (Fin 1)
  end.

(** [Eraser.findShapeAt]: the id of the topmost entry hit. *)
Definition findShapeAt (size x y : Q) (storedShapes : list stored) : option string :=
  option_map sid (find (fun s => eraser_hit size x y (sshape s)) (rev storedShapes)).

(** The tools of [draw/tools.ts]. *)
Inductive tool := TSelect | TText | TCircle | TRect | TPencil | TLine | TEraser
                | TArrow | TDiamond | THand | TResize.

Section Drag.

(** [Math.sqrt]. *)
Variable sqrt : Q -> Q.

(** The last part of [mouseUpHandler] ("finalize drag-based shapes"): the
    shape a drag from [(startX, startY)] to the world point [(wx, wy)]
    creates, [None] when [shapeToSend] stays [null] (the text box sends its
    shape from its [blur] listener). *)
Definition drag_shape (t : tool) (startX startY wx wy : Q) (strokeWidth : Q)
    (strokeColor : string) : option shape :=
  let width := wx - startX in
  let height := wy - startY in
  let st := mkStroke (Some strokeWidth) (Some strokeColor) in
  match t with
  | TRect => Some (Rect startX startY width height st)
  | TCircle =>
      Some (Circle (startX + width / 2) (startY + height / 2)
              (sqrt (width * width + height * height) / 2) st)
  | TLine => Some (Line startX startY wx wy st)
  | TArrow => Some (Arrow startX startY wx wy st)
  | TDiamond =>
      let cornerRadius := qor (Qmin (Qabs width) (Qabs height) * (8 # 100)) 6 in
      Some (Diamond (startX + width / 2) (startY + height / 2) (Qabs width) (Qabs height)
              (Some cornerRadius) st)
  | _ => None
  end.

End Drag.

End ShapeOps.

(* ------------------------------------------------------------------ *)
(** ** A freehand gesture: [mouseDownHandler] creates a [Pencil] and adds
       the press point, [mouseMoveHandler] adds each later pointer
       position, [mouseUpHandler] commits [getPath()] *)

Module Stroke.
Import Freehand.
Local Open Scope Q_scope.

Definition new_pencil : pencil := mkPencil [] (Some []).

Definition draw_stroke (press : point) (moves : list point) : pencil :=
  fold_left (fun pc p => addPoint (fst p) (snd p) pc) moves
    (addPoint (fst press) (snd press) new_pencil).

End Stroke.

(* ------------------------------------------------------------------ *)
(** ** [JoinRoomModal.handleSubmit] (appended to [draw/Game.ts]): the
       message its [catch] block shows *)

Module JoinRoom.
Local Open Scope string_scope.

Definition not_found_msg : string := "Room not found. Please check the name and try again.".
Definition unexpected_msg : string := "An unexpected error occurred. Please try again.".

(** [if (axios.isAxiosError(err) && err.response?.status === 404 || 204)]:
    [&&] binds tighter than [||]. *)
Definition catch_message (isAxiosError : bool) (status : option Z) : string :=
  if (isAxiosError && match status with Some s => Z.eqb s 404 | None => false end)
     || Js.truthy (Js.JNum 204)
  then not_found_msg else unexpected_msg.

End JoinRoom.

(* ================================================================== *)
(** * Properties *)

Module RelayFacts.
Import Js Relay.
Local Open Scope string_scope.

Lemma broadcastToRoom_sends (users : list user) (room : string) (payload : jsval) :
  forall c, In (Send c payload) (broadcastToRoom users room payload) <->
            exists u, In u users /\ conn u = c /\ mem_string room (rooms u) = true.
Proof.
  intro c; unfold broadcastToRoom; rewrite in_flat_map; split.
  - intros [u [Hu Hin]]; destruct (mem_string room (rooms u)) eqn:Hm;
      [destruct Hin as [Heq | []]; inversion Heq; subst; eauto | destruct Hin].
  - intros [u [Hu [Hc Hm]]]; exists u; rewrite Hm; subst; simpl; auto.
Qed.

(** The older relay ([part_007]) always ends a [delete] with the room
    broadcast, whether or not the id passed its numeric check. *)
Lemma handle_007_delete_broadcasts json_parse c uid db room id users :
  exists pre, snd (handle_007 json_parse c uid db (delete_msg room id) users)
              = (pre ++ broadcastToRoom users room
                   (obj [("type", JStr "delete"); ("id", id); ("roomId", JStr room)]))%list.
Proof.
  eexists; cbn; reflexivity.
Qed.

(** The relay of [apps/ws-backend] persists a [delete] exactly when
    [Number(id)] is not NaN, and broadcasts it only then. *)
Lemma handle_index_delete c uid db room id users :
  handle_index c uid db (delete_msg room id) users =
  if is_NaN (to_Number id) then (users, [Log])
  else (users, DbDelete (to_Number id) :: Log ::
          broadcastToRoom users room
            (obj [("type", JStr "delete"); ("id", id); ("roomId", JStr room)])).
Proof. reflexivity. Qed.

Definition alice : user := mkUser 1 "alice" ["1"].
Definition bob : user := mkUser 2 "bob" ["1"].

(** C1 (code_bug).  A [reorder] frame falls through to the unknown-type
    branch of both relay handlers: it is logged, neither persisted nor sent
    to anyone in the room. *)
Theorem reorder_not_relayed :
  forall c uid db room order users,
    handle_index c uid db (reorder_msg room order) users = (users, [Log]) /\
    (forall json_parse,
        handle_007 json_parse c uid db (reorder_msg room order) users = (users, [Log])).
Proof.
  intros; split; [| intros]; reflexivity.
Qed.

(** C2 (code_bug).  A [delete] for the pending id
    [pending-1700000000000] in room ["1"] with alice and bob joined: the
    relay of [apps/ws-backend] logs and stops, nobody receives the delete,
    while the [part_007] relay broadcasts it to both. *)
Theorem delete_pending_id_not_broadcast :
  forall db,
    handle_index 1 "alice" db (delete_msg "1" (JStr "pending-1700000000000")) [alice; bob]
    = ([alice; bob], [Log]) /\
    (forall json_parse,
        snd (handle_007 json_parse 1 "alice" db
               (delete_msg "1" (JStr "pending-1700000000000")) [alice; bob])
        = [Log;
           Send 1 (obj [("type", JStr "delete"); ("id", JStr "pending-1700000000000");
                        ("roomId", JStr "1")]);
           Send 2 (obj [("type", JStr "delete"); ("id", JStr "pending-1700000000000");
                        ("roomId", JStr "1")])]).
Proof.
  intros; split; [| intros]; vm_compute; reflexivity.
Qed.

End RelayFacts.

Module StoreFacts.
Import Shapes Store.
Local Open Scope list_scope.

Definition r0 : shape := Rect 0 0 10 10 (mkStroke None None).
Definition r1 : shape := Rect 20 20 10 10 (mkStroke None None).
Definition t0 : Z := 1700000000000%Z.
Definition g0 : game := mkGame [] None.

(** Two creation gestures ending within the same millisecond. *)
Definition same_ms : game := run [OpAddPending t0 r0; OpAddPending t0 r1] g0.

(** C4 (code_bug).  Two shapes created while [Date.now()] reads
    1700000000000 both get the id [pending-1700000000000]: the store then
    holds two entries with the same id. *)
Theorem pending_ids_collide :
  ids same_ms = ["pending-1700000000000"; "pending-1700000000000"]%string /\
  ~ NoDup (ids same_ms).
Proof.
  split; [vm_compute; reflexivity |].
  vm_compute; intro H; inversion H as [| x l Hnotin _]; subst; apply Hnotin; left; reflexivity.
Qed.

(** The reconciliation event the relay sends back for the first of them. *)
Definition recon : incoming := InChat "42" r0 (Some "pending-1700000000000"%string).

(** C5 (code_bug).  On the store [same_ms] the reconciliation is not
    idempotent: the first delivery turns the first pending entry into
    [42], a duplicate delivery turns the second one into [42] as well. *)
Theorem reconcile_duplicate_delivery_differs :
  on_message recon same_ms
    = mkGame [mkStored "42" r0 None;
              mkStored "pending-1700000000000" r1 (Some "pending-1700000000000"%string)] None /\
  on_message recon (on_message recon same_ms)
    = mkGame [mkStored "42" r0 None; mkStored "42" r0 None] None /\
  on_message recon (on_message recon same_ms) <> on_message recon same_ms.
Proof.
  split; [vm_compute; reflexivity |].
  split; [vm_compute; reflexivity |].
  vm_compute; intro H; inversion H.
Qed.

End StoreFacts.

Module ReorderFacts.
Import Shapes Store.
Local Open Scope list_scope.

(** [{ id, shape }] rebuilt from an entry: [tempId] is gone. *)
Definition clear_temp (s : stored) : stored := mkStored (sid s) (sshape s) None.

(** [order] mentions [id]. *)
Definition in_order (order : list string) (id : string) : bool :=
  existsb (String.eqb id) order.

Definition same_id (id : string) (s : stored) : bool := String.eqb (sid s) id.

Lemma NoDup_sid_inj (l : list stored) x y :
  NoDup (map sid l) -> In x l -> In y l -> sid x = sid y -> x = y.
Proof.
  induction l as [| a r IH]; simpl; [tauto |].
  intros Hnd Hx Hy Heq; inversion Hnd as [| ? ? Hnotin Hnd']; subst.
  destruct Hx as [<- | Hx], Hy as [<- | Hy]; auto.
  - exfalso; apply Hnotin; rewrite Heq; apply in_map; auto.
  - exfalso; apply Hnotin; rewrite <- Heq; apply in_map; auto.
Qed.

Lemma filter_same_id_nil (l : list stored) id :
  ~ In id (map sid l) -> filter (same_id id) l = [].
Proof.
  induction l as [| a r IH]; simpl; auto.
  intros Hn; unfold same_id at 1; destruct (String.eqb_spec (sid a) id).
  - exfalso; auto.
  - apply IH; auto.
Qed.

Lemma filter_same_id_one (l : list stored) s :
  NoDup (map sid l) -> In s l -> filter (same_id (sid s)) l = [s].
Proof.
  induction l as [| a r IH]; simpl; [tauto |].
  intros Hnd Hs; inversion Hnd as [| ? ? Hnotin Hnd']; subst.
  unfold same_id at 1; destruct (String.eqb_spec (sid a) (sid s)) as [Heq | Hne].
  - destruct Hs as [<- | Hs].
    + rewrite filter_same_id_nil; auto.
    + exfalso; apply Hnotin; rewrite Heq; apply in_map; auto.
  - destruct Hs as [<- | Hs]; [congruence | auto].
Qed.

Lemma filter_same_id_cases (l : list stored) id :
  NoDup (map sid l) ->
  filter (same_id id) l = [] \/
  exists s, In s l /\ sid s = id /\ filter (same_id id) l = [s].
Proof.
  intros Hnd.
  destruct (in_dec String.string_dec id (map sid l)) as [Hin | Hn].
  - right; apply in_map_iff in Hin as [s [<- Hs]].
    exists s; repeat split; auto; apply filter_same_id_one; auto.
  - left; apply filter_same_id_nil; auto.
Qed.

Lemma find_hd_filter {A} (p : A -> bool) (l : list A) :
  find p l = hd_error (filter p l).
Proof. induction l as [| a r IH]; simpl; auto; destruct (p a); auto. Qed.

Lemma filter_rev' {A} (p : A -> bool) (l : list A) :
  filter p (rev l) = rev (filter p l).
Proof.
  induction l as [| a r IH]; simpl; auto.
  rewrite filter_app, IH; simpl; destruct (p a); simpl; auto using app_nil_r.
Qed.

(** With distinct ids, the [Map] lookup returns the shape of the unique
    entry with that id. *)
Lemma idTo_get_nodup (l : list stored) id :
  NoDup (map sid l) ->
  idTo_get l id = option_map sshape (hd_error (filter (same_id id) l)).
Proof.
  intros Hnd; unfold idTo_get.
  rewrite find_hd_filter.
  change (fun s : stored => String.eqb (sid s) id) with (same_id id).
  rewrite filter_rev'.
  destruct (filter_same_id_cases l id Hnd) as [-> | [s [_ [_ ->]]]]; reflexivity.
Qed.

Lemma reorder_first_flat (shapes : list stored) (order : list string) :
  reorder_first shapes order =
  flat_map (fun id => match idTo_get shapes id with
                      | Some sh => [mkStored id sh None]
                      | None => []
                      end) order.
Proof.
  unfold reorder_first.
  assert (G : forall acc,
    fold_left (fun newList id =>
                 match idTo_get shapes id with
                 | Some sh => newList ++ [mkStored id sh None]
                 | None => newList
                 end) order acc
    = acc ++ flat_map (fun id => match idTo_get shapes id with
                                 | Some sh => [mkStored id sh None]
                                 | None => []
                                 end) order).
  { induction order as [| a r IH]; intros acc; simpl.
    - rewrite app_nil_r; reflexivity.
    - rewrite IH; destruct (idTo_get shapes a); rewrite ?app_assoc, ?app_nil_r; reflexivity. }
  apply G.
Qed.

Lemma reorder_first_nodup (shapes : list stored) (order : list string) :
  NoDup (map sid shapes) ->
  reorder_first shapes order =
  flat_map (fun id => map clear_temp (filter (same_id id) shapes)) order.
Proof.
  intros Hnd; rewrite reorder_first_flat; apply flat_map_ext; intros id.
  rewrite idTo_get_nodup by auto.
  destruct (filter_same_id_cases shapes id Hnd) as [-> | [s [_ [Hid ->]]]]; simpl; auto.
  unfold clear_temp; rewrite Hid; reflexivity.
Qed.

Lemma existsb_same_id_prefix (shapes : list stored) s id :
  NoDup (map sid shapes) -> In s shapes ->
  existsb (fun x => String.eqb (sid x) (sid s))
    (map clear_temp (filter (same_id id) shapes)) = String.eqb (sid s) id.
Proof.
  intros Hnd Hs.
  destruct (String.eqb_spec (sid s) id) as [<- | Hne].
  - rewrite filter_same_id_one by auto; simpl; rewrite String.eqb_refl; reflexivity.
  - apply not_true_is_false; intro H.
    apply existsb_exists in H as [x [Hx Heq]].
    apply in_map_iff in Hx as [y [<- Hy]]; apply filter_In in Hy as [_ Hy].
    unfold same_id in Hy; apply String.eqb_eq in Hy, Heq; simpl in Heq; congruence.
Qed.

Lemma existsb_flat_map {A B} (p : B -> bool) (f : A -> list B) (l : list A) :
  existsb p (flat_map f l) = existsb (fun a => existsb p (f a)) l.
Proof. induction l as [| a r IH]; simpl; auto; rewrite existsb_app, IH; reflexivity. Qed.

Lemma existsb_ext' {A} (f g : A -> bool) (l : list A) :
  (forall x, f x = g x) -> existsb f l = existsb g l.
Proof. intros H; induction l as [| a r IH]; simpl; auto; rewrite H, IH; reflexivity. Qed.

Lemma reorder_append_nodup (order : list string) (shapes acc : list stored) :
  NoDup (map sid shapes) ->
  (forall s, In s shapes ->
     existsb (fun x => String.eqb (sid x) (sid s)) acc = in_order order (sid s)) ->
  reorder_append shapes acc =
  acc ++ filter (fun s => negb (in_order order (sid s))) shapes.
Proof.
  unfold reorder_append; revert acc.
  induction shapes as [| a r IH]; intros acc Hnd Hacc; simpl.
  - rewrite app_nil_r; reflexivity.
  - inversion Hnd as [| ? ? Hnotin Hnd']; subst.
    rewrite (Hacc a (or_introl eq_refl)).
    destruct (in_order order (sid a)) eqn:Ha; simpl.
    + apply IH; auto; intros s Hs; apply Hacc; right; auto.
    + rewrite IH; [rewrite <- app_assoc; reflexivity | auto |].
      intros s Hs; rewrite existsb_app, (Hacc s (or_intror Hs)); simpl.
      destruct (String.eqb_spec (sid a) (sid s)) as [Heq | Hne].
      * exfalso; apply Hnotin; rewrite Heq; apply in_map; auto.
      * rewrite orb_false_r; reflexivity.
Qed.

(** With distinct store ids, [applyRemoteReorder] is: for each id of
    [order] (repeats included), the store entry with that id rebuilt as
    [{ id, shape }]; then the entries whose id [order] does not mention, in
    their prior order and unchanged. *)
Lemma applyRemoteReorder_nodup (order : list string) (shapes : list stored) :
  NoDup (map sid shapes) ->
  applyRemoteReorder order shapes =
  flat_map (fun id => map clear_temp (filter (same_id id) shapes)) order
  ++ filter (fun s => negb (in_order order (sid s))) shapes.
Proof.
  intros Hnd; unfold applyRemoteReorder.
  rewrite reorder_first_nodup by auto.
  apply reorder_append_nodup; auto.
  intros s Hs; rewrite existsb_flat_map; unfold in_order.
  apply existsb_ext'; intros id.
  rewrite existsb_same_id_prefix by auto; reflexivity.
Qed.

(** Without any assumption, every id of the store is still present after a
    reorder. *)
Lemma reorder_append_keeps (shapes acc : list stored) :
  (forall x, In x acc -> In x (reorder_append shapes acc)) /\
  (forall s, In s shapes -> exists x, In x (reorder_append shapes acc) /\ sid x = sid s).
Proof.
  unfold reorder_append; revert acc.
  induction shapes as [| a r IH]; intros acc; simpl; [split; auto; tauto |].
  destruct (existsb (fun x => String.eqb (sid x) (sid a)) acc) eqn:He.
  - destruct (IH acc) as [Hmono Hall]; split; [auto |].
    intros s [<- | Hs]; [| apply Hall; auto].
    apply existsb_exists in He as [x [Hx Heq]]; apply String.eqb_eq in Heq.
    exists x; split; auto.
  - destruct (IH (acc ++ [a])) as [Hmono Hall]; split.
    + intros x Hx; apply Hmono, in_or_app; auto.
    + intros s [<- | Hs]; [| apply Hall; auto].
      exists a; split; auto; apply Hmono, in_or_app; right; left; reflexivity.
Qed.

(** X29.  Every id of the prior store is still present after
    [applyRemoteReorder], and when the store's ids are distinct the result
    is the entries named by [order], in the order given (repeats included)
    and rebuilt as [{ id, shape }], followed by the entries [order] does not
    mention, unchanged and in their prior relative order. *)
Theorem reorder_keeps_ids_and_orders :
  forall (order : list string) (shapes : list stored),
    (forall id, In id (map sid shapes) ->
                In id (map sid (applyRemoteReorder order shapes))) /\
    (NoDup (map sid shapes) ->
     applyRemoteReorder order shapes =
     flat_map (fun id => map clear_temp (filter (same_id id) shapes)) order
     ++ filter (fun s => negb (in_order order (sid s))) shapes).
Proof.
  intros order shapes; split.
  - intros id Hid; apply in_map_iff in Hid as [s [<- Hs]].
    destruct (proj2 (reorder_append_keeps shapes (reorder_first shapes order)) s Hs)
      as [x [Hx Heq]].
    rewrite <- Heq; apply in_map; exact Hx.
  - apply applyRemoteReorder_nodup.
Qed.

(** An entry whose id appears twice in the store ([same_ms] of
    [StoreFacts]: two shapes created in the same millisecond). *)
Definition dup_store : list stored :=
  [mkStored "p" StoreFacts.r0 (Some "p"%string); mkStored "p" StoreFacts.r1 (Some "p"%string)].

(** C6 (code_bug).  With an empty [order] the second entry of [dup_store]
    is dropped: the result does not contain every entry of the prior store,
    although the handler means to preserve the entries the order does not
    mention. *)
Lemma reorder_drops_duplicate_entry :
  applyRemoteReorder [] dup_store = [mkStored "p" StoreFacts.r0 (Some "p"%string)] /\
  In (mkStored "p" StoreFacts.r1 (Some "p"%string)) dup_store /\
  ~ In (mkStored "p" StoreFacts.r1 (Some "p"%string)) (applyRemoteReorder [] dup_store).
Proof.
  split; [vm_compute; reflexivity |].
  split; [right; left; reflexivity |].
  vm_compute; intros [H | []]; inversion H.
Qed.

(** C9 (code_bug).  With [order = ["p"]] both entries of [dup_store]
    collapse into one carrying the shape of the last ([new Map] keeps the
    last value of a repeated key): the first entry is neither rebuilt with
    its shape nor kept. *)
Lemma reorder_duplicate_takes_last_shape :
  applyRemoteReorder ["p"%string] dup_store = [mkStored "p" StoreFacts.r1 None] /\
  StoreFacts.r0 <> StoreFacts.r1.
Proof.
  split; [vm_compute; reflexivity |].
  intro H; inversion H.
Qed.

(** X30.  When the store's ids are distinct, every entry [s]
    whose id [order] mentions is present afterwards as [{ id, shape }] only
    (same id and shape, no [tempId]), every other entry is present
    unchanged (with its [tempId]), and no other entry carries that id. *)
Theorem reorder_rebuilds_mentioned_entries :
  forall (order : list string) (shapes : list stored),
    NoDup (map sid shapes) ->
    forall s, In s shapes ->
      let e := if in_order order (sid s) then clear_temp s else s in
      In e (applyRemoteReorder order shapes) /\
      (forall x, In x (applyRemoteReorder order shapes) -> sid x = sid s -> x = e).
Proof.
  intros order shapes Hnd s Hs e.
  rewrite applyRemoteReorder_nodup by auto.
  unfold e; destruct (in_order order (sid s)) eqn:Ho; split.
  - apply in_or_app; left.
    unfold in_order in Ho; apply existsb_exists in Ho as [id [Hid Heq]].
    apply String.eqb_eq in Heq; subst id.
    apply in_flat_map; exists (sid s); split; auto.
    rewrite filter_same_id_one by auto; left; reflexivity.
  - intros x Hx Hsx; apply in_app_or in Hx as [Hx | Hx].
    + apply in_flat_map in Hx as [id [_ Hx]].
      apply in_map_iff in Hx as [y [<- Hy]]; apply filter_In in Hy as [Hy _].
      f_equal; apply NoDup_sid_inj with shapes; auto.
    + apply filter_In in Hx as [Hx Hn].
      rewrite Hsx, Ho in Hn; discriminate.
  - apply in_or_app; right; apply filter_In; split; auto; rewrite Ho; reflexivity.
  - intros x Hx Hsx; apply in_app_or in Hx as [Hx | Hx].
    + apply in_flat_map in Hx as [id [Hid Hx]].
      apply in_map_iff in Hx as [y [<- Hy]]; apply filter_In in Hy as [Hy Hyid].
      unfold same_id in Hyid; apply String.eqb_eq in Hyid.
      simpl in Hsx; exfalso.
      assert (Hin : in_order order (sid s) = true).
      { unfold in_order; apply existsb_exists; exists id; split; auto.
        apply String.eqb_eq; congruence. }
      congruence.
    + apply filter_In in Hx as [Hx _]; apply NoDup_sid_inj with shapes; auto.
Qed.

End ReorderFacts.

Module GeometryFacts.
Import Shapes Geometry.
Local Open Scope Q_scope.

Lemma Qltb_true (a b : Q) : Qltb a b = true <-> a < b.
Proof.
  unfold Qltb; rewrite negb_true_iff; split; intro H.
  - apply Qnot_le_lt; intro H'; apply Qle_bool_iff in H'; congruence.
  - apply not_true_is_false; intro H'; apply Qle_bool_iff in H'; apply Qle_not_lt in H'; auto.
Qed.

Lemma Qltb_false (a b : Q) : Qltb a b = false <-> b <= a.
Proof.
  unfold Qltb; rewrite negb_false_iff, Qle_bool_iff; tauto.
Qed.

(** The box [computeNewBBoxFromHandle] returns is at least [minSize] wide
    and high, for every handle and delta. *)
Lemma computeNewBBox_min (o : box) (h : handle) (dx dy : Q) :
  minSize <= bw (computeNewBBoxFromHandle o h dx dy) /\
  minSize <= bh (computeNewBBoxFromHandle o h dx dy).
Proof.
  unfold computeNewBBoxFromHandle, minSize.
  set (e := match h with
            | HNW => (bx o + dx, by_ o + dy, bx o + bw o, by_ o + bh o)
            | HN => (bx o, by_ o + dy, bx o + bw o, by_ o + bh o)
            | HNE => (bx o, by_ o + dy, bx o + bw o + dx, by_ o + bh o)
            | HE => (bx o, by_ o, bx o + bw o + dx, by_ o + bh o)
            | HSE => (bx o, by_ o, bx o + bw o + dx, by_ o + bh o + dy)
            | HS => (bx o, by_ o, bx o + bw o, by_ o + bh o + dy)
            | HSW => (bx o + dx, by_ o, bx o + bw o, by_ o + bh o + dy)
            | HW => (bx o + dx, by_ o, bx o + bw o, by_ o + bh o)
            end).
  destruct e as [[[l t] r] b].
  destruct (Qltb (r - l) 6) eqn:Hw; destruct (Qltb (b - t) 6) eqn:Hh;
    try apply Qltb_false in Hw; try apply Qltb_false in Hh;
    destruct (left_family h); destruct (top_family h); simpl; split; lra.
Qed.

(** Rectangles, circles and diamonds: the variants the resize transform
    re-derives from the clamped box. *)
Definition is_box_shape (sh : shape) : bool :=
  match sh with Rect _ _ _ _ _ | Circle _ _ _ _ | Diamond _ _ _ _ _ _ => true | _ => false end.

(** C3 (corrected).  For a rectangle, circle or diamond, every handle,
    gesture start and pointer position, the resized shape's bounding box is
    at least 6 wide and 6 high. *)
Theorem resize_box_shapes_min_size :
  forall measureText h sx sy orig px py,
    is_box_shape orig = true ->
    match applyResize measureText (mkResize (Some h) (Some (sx, sy)) (Some orig)) px py with
    | Some sh' => 6 <= bw (bbox sh') /\ 6 <= bh (bbox sh')
    | None => False
    end.
Proof.
  intros measureText h sx sy orig px py Hbox.
  destruct orig; try discriminate; simpl.
  - split; apply Q.le_max_l.
  - set (nb := computeNewBBoxFromHandle _ h (px - sx) (py - sy)).
    set (size := Qmax (Qmax (bw nb) (bh nb)) 6).
    assert (H3 : 3 <= Qmax 3 (size / 2)) by apply Q.le_max_l.
    rewrite Qabs_pos by lra; split; lra.
  - split; apply Q.le_max_l.
Qed.

Definition no_stroke : stroke := mkStroke None None.

(** A stand-in for the canvas text metric (monospace, 0.6 em per
    character); the line and arrow branches do not consult it. *)
Definition mono_measure (fontSize : Q) (_ : string) (s : string) : Q :=
  (3 # 5) * fontSize * inject_Z (Z.of_nat (String.length s)).

(** C3 counterexample.  Dragging the [se] handle of the line from (0,0) to
    (10,10) back by (-10,-10) moves its end point onto its start point: the
    resized line's bounding box is 0 by 0. *)
Lemma resize_line_collapses :
  applyResize mono_measure (mkResize (Some HSE) (Some (0, 0)) (Some (Line 0 0 10 10 no_stroke)))
    (-10) (-10) = Some (Line 0 0 0 0 no_stroke) /\
  bw (bbox (Line 0 0 0 0 no_stroke)) == 0 /\ bh (bbox (Line 0 0 0 0 no_stroke)) == 0.
Proof.
  split; [vm_compute; reflexivity | split; reflexivity].
Qed.

(** C8 (corrected).  The selection test for a diamond is its bounding box
    grown by the padding: a point is inside exactly when it is within half
    the width plus 6 horizontally and half the height plus 6 vertically of
    the centre. *)
Theorem diamond_hit_is_padded_box :
  forall x y cx cy w h cr st,
    pointInShape x y (Diamond cx cy w h cr st) default_padding = true <->
    Qabs (x - cx) <= w / 2 + 6 /\ Qabs (y - cy) <= h / 2 + 6.
Proof.
  intros; unfold pointInShape, default_padding.
  rewrite !andb_true_iff, !Qle_bool_iff, !Qabs_Qle_condition.
  split; intros H; repeat destruct H as [? H]; repeat split; lra.
Qed.

(** C8 counterexample.  For the diamond centred at the origin with width
    and height 20, the point (15, 15) is selected as inside, though its
    taxicab-normalised distance 15/16 + 15/16 exceeds 1. *)
Lemma diamond_corner_point_selected :
  pointInShape 15 15 (Diamond 0 0 20 20 None no_stroke) default_padding = true /\
  diamond_taxicab_inside 15 15 0 0 20 20 default_padding = false.
Proof. split; vm_compute; reflexivity. Qed.

End GeometryFacts.

Module FreehandFacts.
Import Geometry GeometryFacts Freehand.
Local Open Scope Q_scope.

Lemma scan_range (mid : list point) :
  forall i a b idx d idx' d',
    scan i mid a b idx d = (idx', d') ->
    (idx' = idx /\ d' = d) \/ (i <= idx' < i + List.length mid)%nat.
Proof.
  induction mid as [| p r IH]; intros i a b idx d idx' d' Hs; simpl in Hs.
  - inversion Hs; auto.
  - simpl; destruct (Qltb d (lineDistance2 p a b)).
    + apply IH in Hs as [[-> _] | Hr]; right; lia.
    + apply IH in Hs as [Hl | Hr]; [left; auto | right; lia].
Qed.

Lemma last_error_app {A} (l r : list A) :
  r <> [] -> last_error (l ++ r) = last_error r.
Proof.
  intros Hr; unfold last_error; rewrite rev_app_distr.
  destruct (rev r) eqn:E; [apply (f_equal (@rev A)) in E; rewrite rev_involutive in E;
                           simpl in E; contradiction | reflexivity].
Qed.

Lemma last_error_cons {A} (x : A) (l : list A) :
  l <> [] -> last_error (x :: l) = last_error l.
Proof. intros H; apply (last_error_app [x] l H). Qed.

Lemma last_error_skipn {A} (k : nat) (l : list A) :
  (k < List.length l)%nat -> last_error (skipn k l) = last_error l.
Proof.
  revert l; induction k as [| k IH]; intros l Hk; [reflexivity |].
  destruct l as [| x l]; simpl in Hk; [lia |]; simpl.
  rewrite IH by lia; symmetry; apply last_error_cons.
  destruct l; simpl in Hk; [lia | discriminate].
Qed.

Lemma last_error_last {A} (l : list A) (d : A) :
  l <> [] -> last_error l = Some (last l d).
Proof.
  intros H; rewrite (app_removelast_last d H) at 1.
  rewrite last_error_app by discriminate; reflexivity.
Qed.

Lemma hd_error_firstn {A} (k : nat) (l : list A) :
  (0 < k)%nat -> hd_error (firstn k l) = hd_error l.
Proof. destruct k, l; simpl; auto; lia. Qed.

Lemma rdp_fuel_endpoints (epsilon : Q) :
  0 <= epsilon ->
  forall fuel points, (List.length points <= fuel)%nat ->
    exists r, simplifyRDP_fuel fuel points epsilon = Some r /\
              hd_error r = hd_error points /\
              last_error r = last_error points /\
              ((2 <= List.length points)%nat -> (2 <= List.length r)%nat).
Proof.
  intros Heps fuel; induction fuel as [| f IH]; intros points Hlen.
  - destruct points; simpl in Hlen; [| lia].
    exists []; simpl; repeat split; auto.
  - simpl.
    destruct (Nat.ltb (List.length points) 3) eqn:Hlt.
    { exists points; repeat split; auto. }
    apply Nat.ltb_ge in Hlt.
    destruct (scan 1 (firstn (List.length points - 2) (tl points))
                (hd (0, 0) points) (last points (0, 0)) 0 0) as [index dmax2] eqn:Hs.
    assert (Hne : points <> []) by (intros ->; simpl in Hlt; lia).
    destruct (exceeds dmax2 epsilon) eqn:Hex.
    + assert (Hidx : (1 <= index <= List.length points - 2)%nat).
      { unfold exceeds in Hex.
        assert (Hq : Qltb epsilon 0 = false) by (apply Qltb_false; lra).
        rewrite Hq in Hex; simpl in Hex; apply Qltb_true in Hex.
        apply scan_range in Hs as [[-> ->] | Hr].
        - exfalso; assert (0 <= epsilon * epsilon) by nra; lra.
        - rewrite length_firstn in Hr.
          destruct points as [| p0 rest]; [contradiction |]; simpl in Hr, Hlt |- *; lia. }
      destruct (IH (firstn (index + 1) points)) as [r1 [E1 [H1 [_ L1]]]].
      { rewrite length_firstn; lia. }
      destruct (IH (skipn index points)) as [r2 [E2 [_ [H2 L2]]]].
      { rewrite length_skipn; lia. }
      rewrite E1, E2.
      exists (removelast r1 ++ r2); repeat split.
      * rewrite hd_error_firstn in H1 by lia.
        assert (L1' : (2 <= List.length r1)%nat) by (apply L1; rewrite length_firstn; lia).
        destruct r1 as [| x [| y r1']]; simpl in L1'; try lia.
        simpl in H1 |- *; exact H1.
      * rewrite last_error_app, H2; [apply last_error_skipn; lia |].
        intros ->; assert (L2' : (2 <= 0)%nat) by (apply L2; rewrite length_skipn; lia); lia.
      * intros _; rewrite length_app.
        assert (L2' : (2 <= List.length r2)%nat) by (apply L2; rewrite length_skipn; lia).
        lia.
    + exists [hd (0, 0) points; last points (0, 0)]; repeat split.
      * destruct points; [contradiction | reflexivity].
      * rewrite (last_error_last points (0, 0) Hne); reflexivity.
      * intros _; simpl; lia.
Qed.

(** C7 (confirmed).  For every point sequence and every tolerance
    [epsilon >= 0], [simplifyRDP] terminates and returns a sequence whose
    first and last points are those of the input. *)
Theorem simplifyRDP_keeps_endpoints :
  forall (points : list point) (epsilon : Q),
    0 <= epsilon ->
    exists r, simplifyRDP points epsilon = Some r /\
              hd_error r = hd_error points /\
              last_error r = last_error points.
Proof.
  intros points epsilon Heps.
  destruct (rdp_fuel_endpoints epsilon Heps (List.length points) points (le_n _))
    as [r [E [H1 [H2 _]]]].
  exists r; auto.
Qed.

End FreehandFacts.

Module CameraFacts.
Import Camera GeometryFacts.
Local Open Scope Q_scope.

Lemma zoom_setZoom (z : num) (scr : option (num * num)) (c : camera) :
  zoom (setZoom z scr c) = js_max minZ (js_min maxZ z).
Proof.
  unfold setZoom; destruct scr as [[sx sy] |]; [| reflexivity].
  destruct (screenToWorld c sx sy); destruct (screenToWorld _ sx sy); reflexivity.
Qed.

Lemma clamp_in_range (z : num) :
  z <> NaN -> in_zoom_range (js_max minZ (js_min maxZ z)).
Proof.
  intros Hz; unfold in_zoom_range, minZ, maxZ.
  destruct z as [q | | |]; [| contradiction | | ].
  - unfold js_min, num_lt; destruct (Geometry.Qltb q 8) eqn:H8.
    + apply Qltb_true in H8; unfold js_max, num_lt.
      destruct (Geometry.Qltb (1 # 10) q) eqn:H1.
      * apply Qltb_true in H1; exists q; repeat split; lra.
      * apply Qltb_false in H1; exists (1 # 10); repeat split; lra.
    + apply Qltb_false in H8; unfold js_max, num_lt.
      exists 8; repeat split; vm_compute; discriminate.
  - exists 8; repeat split; vm_compute; discriminate.
  - exists (1 # 10); repeat split; vm_compute; discriminate.
Qed.

(** C10 (corrected).  For every requested zoom value other than NaN, with
    or without a cursor position, the zoom [setZoom] stores is a finite
    number in [0.1, 8]. *)
Theorem setZoom_in_range :
  forall z scr c, z <> NaN -> in_zoom_range (zoom (setZoom z scr c)).
Proof.
  intros z scr c Hz; rewrite zoom_setZoom; apply clamp_in_range; exact Hz.
Qed.

(** Wheel zooming from a zoom in range stays in range: the product of two
    finite numbers is finite. *)
Lemma wheel_in_range (deltaY cx cy : Q) (c : camera) :
  in_zoom_range (zoom c) -> in_zoom_range (zoom (wheel deltaY cx cy c)).
Proof.
  intros [q [Hq _]]; unfold wheel; rewrite zoom_setZoom, Hq; apply clamp_in_range.
  destruct (Geometry.Qltb deltaY 0); discriminate.
Qed.

Definition camera0 : camera := mkCamera (Fin 0) (Fin 0) (Fin 1).

(** C10 counterexample.  [setZoom(NaN)] stores NaN: [Math.min] and
    [Math.max] propagate it, and NaN is not in [0.1, 8]. *)
Lemma setZoom_NaN_escapes :
  zoom (setZoom NaN None camera0) = NaN /\ ~ in_zoom_range NaN.
Proof.
  split; [reflexivity |].
  intros [q [H _]]; discriminate.
Qed.

End CameraFacts.

(** * Instances of the theorems with hypotheses on concrete inputs *)

(* ------------------------------------------------------------------ *)
(** ** Further properties of the code: the camera helpers, the relay's
       room membership and heartbeat, the client store, the shape
       geometry, freehand strokes and the join-room modal *)

Module CameraExtras.
Import Camera CameraOps CameraFacts GeometryFacts.
Local Open Scope Q_scope.

Lemma Qeq_bool_false (z : Q) : ~ z == 0 -> Qeq_bool z 0 = false.
Proof.
  intros H; destruct (Qeq_bool z 0) eqn:E; [apply Qeq_bool_iff in E; contradiction | reflexivity].
Qed.

Lemma js_div_fin (a z : Q) : ~ z == 0 -> js_div (Fin a) (Fin z) = Fin (a / z).
Proof. intros H; unfold js_div; rewrite Qeq_bool_false by exact H; reflexivity. Qed.

(** The clamp of [setZoom] on a finite value. *)
Lemma clamp_fin (q : Q) :
  exists w, js_max minZ (js_min maxZ (Fin q)) = Fin w /\ 1 # 10 <= w /\ w <= 8 /\
            (1 # 10 <= q -> q <= 8 -> w == q).
Proof.
  unfold js_max, js_min, minZ, maxZ, num_lt.
  destruct (Geometry.Qltb q 8) eqn:H8.
  - apply Qltb_true in H8.
    destruct (Geometry.Qltb (1 # 10) q) eqn:H1.
    + apply Qltb_true in H1; exists q; repeat split; try lra; intros; reflexivity.
    + apply Qltb_false in H1; exists (1 # 10); repeat split; try lra.
  - apply Qltb_false in H8.
    destruct (Geometry.Qltb (1 # 10) 8) eqn:H1; [| discriminate].
    exists 8; repeat split; try lra.
Qed.

(** [setZoom] about a screen point on a finite camera. *)
Lemma setZoom_fin (x y z q sx sy : Q) :
  ~ z == 0 ->
  exists x' y' w,
    setZoom (Fin q) (Some (Fin sx, Fin sy)) (mkCamera (Fin x) (Fin y) (Fin z))
      = mkCamera (Fin x') (Fin y') (Fin w) /\
    1 # 10 <= w /\ w <= 8 /\ (1 # 10 <= q -> q <= 8 -> w == q) /\
    x' == x + (sx / z - sx / w) /\ y' == y + (sy / z - sy / w).
Proof.
  intros Hz.
  destruct (clamp_fin q) as [w [Ew [Hw1 [Hw2 Hwq]]]].
  assert (Hw0 : ~ w == 0) by (intro; lra).
  unfold setZoom; rewrite Ew; unfold screenToWorld; cbn [zoom cameraX cameraY].
  rewrite (js_div_fin sx z Hz), (js_div_fin sy z Hz), (js_div_fin sx w Hw0),
    (js_div_fin sy w Hw0); simpl.
  eexists _, _, w; split; [reflexivity |].
  repeat split; auto; ring.
Qed.

Lemma wheel_fin (dY cx cy x y z : Q) :
  ~ z == 0 ->
  let d := if Geometry.Qltb dY 0 then 112 # 100 else 100 # 112 in
  1 # 10 <= z * d -> z * d <= 8 ->
  exists x' y' w,
    wheel dY cx cy (mkCamera (Fin x) (Fin y) (Fin z)) = mkCamera (Fin x') (Fin y') (Fin w) /\
    w == z * d /\ x' == x + (cx / z - cx / (z * d)) /\ y' == y + (cy / z - cy / (z * d)).
Proof.
  intros Hz d H1 H2.
  unfold wheel.
  replace (js_mul (zoom (mkCamera (Fin x) (Fin y) (Fin z)))
             (if Geometry.Qltb dY 0 then Fin (112 # 100) else Fin (100 # 112)))
    with (Fin (z * d)) by (unfold d; destruct (Geometry.Qltb dY 0); reflexivity).
  destruct (setZoom_fin x y z (z * d) cx cy Hz) as [x' [y' [w [E [_ [_ [Hw [Hx Hy]]]]]]]].
  rewrite E; specialize (Hw H1 H2).
  exists x', y', w; repeat split; auto.
  - rewrite Hx, Hw; reflexivity.
  - rewrite Hy, Hw; reflexivity.
Qed.

(** X1. Screen and world coordinates are inverse to each other. *)
Theorem screen_world_round_trip :
  forall cx cy z sx sy wx wy,
    ~ z == 0 ->
    let c := mkCamera (Fin cx) (Fin cy) (Fin z) in
    (exists a b sx' sy',
        screenToWorld c (Fin sx) (Fin sy) = (Fin a, Fin b) /\
        worldToScreen c (Fin a) (Fin b) = (Fin sx', Fin sy') /\ sx' == sx /\ sy' == sy) /\
    (exists a b wx' wy',
        worldToScreen c (Fin wx) (Fin wy) = (Fin a, Fin b) /\
        screenToWorld c (Fin a) (Fin b) = (Fin wx', Fin wy') /\ wx' == wx /\ wy' == wy).
Proof.
  intros cx cy z sx sy wx wy Hz c; split.
  - unfold c, screenToWorld, worldToScreen; cbn [zoom cameraX cameraY].
    rewrite (js_div_fin sx z Hz), (js_div_fin sy z Hz); simpl.
    do 4 eexists; split; [reflexivity |]; split; [reflexivity |]; split; field; exact Hz.
  - unfold c, screenToWorld, worldToScreen; cbn [zoom cameraX cameraY js_mul js_sub js_add js_neg].
    do 4 eexists; split; [reflexivity |].
    rewrite !js_div_fin by exact Hz.
    split; [reflexivity |]; split; field; exact Hz.
Qed.

(** X2. Zooming about the cursor keeps the world point under it. *)
Theorem setZoom_keeps_point_under_cursor :
  forall cx cy z q sx sy,
    ~ z == 0 ->
    let c := mkCamera (Fin cx) (Fin cy) (Fin z) in
    exists a b a' b',
      screenToWorld c (Fin sx) (Fin sy) = (Fin a, Fin b) /\
      screenToWorld (setZoom (Fin q) (Some (Fin sx, Fin sy)) c) (Fin sx) (Fin sy)
        = (Fin a', Fin b') /\ a' == a /\ b' == b.
Proof.
  intros cx cy z q sx sy Hz c.
  destruct (setZoom_fin cx cy z q sx sy Hz) as [x' [y' [w [E [Hw1 [_ [_ [Hx Hy]]]]]]]].
  assert (Hw0 : ~ w == 0) by (intro; lra).
  unfold c; rewrite E; unfold screenToWorld; cbn [zoom cameraX cameraY].
  rewrite (js_div_fin sx z Hz), (js_div_fin sy z Hz), (js_div_fin sx w Hw0),
    (js_div_fin sy w Hw0); simpl.
  do 4 eexists; split; [reflexivity |]; split; [reflexivity |].
  split; [rewrite Hx | rewrite Hy]; ring.
Qed.

(** X3. While panning, the world point grabbed at the press stays under
    the pointer. *)
Theorem pan_drag_keeps_grabbed_point :
  forall cx cy z px py sx sy,
    ~ z == 0 ->
    let c := mkCamera (Fin cx) (Fin cy) (Fin z) in
    exists a b a' b',
      screenToWorld c (Fin px) (Fin py) = (Fin a, Fin b) /\
      screenToWorld (pan_drag (Fin cx, Fin cy) (Fin px, Fin py) (Fin sx, Fin sy) c)
        (Fin sx) (Fin sy) = (Fin a', Fin b') /\ a' == a /\ b' == b.
Proof.
  intros cx cy z px py sx sy Hz c.
  unfold c, pan_drag, screenToWorld; cbn [zoom cameraX cameraY fst snd js_sub js_add js_neg].
  rewrite !js_div_fin by exact Hz; simpl.
  do 4 eexists; split; [reflexivity |]; split; [reflexivity |].
  split; field; exact Hz.
Qed.

(** X4. One wheel event applies the zoom step twice. *)
Theorem wheel_event_applies_step_twice :
  forall dY cx cy x y z,
    let d := if Geometry.Qltb dY 0 then 112 # 100 else 100 # 112 in
    1 # 10 <= z * d -> z * d <= 8 -> 1 # 10 <= z * d * d -> z * d * d <= 8 ->
    exists x' y' w,
      wheel_event dY cx cy (mkCamera (Fin x) (Fin y) (Fin z))
        = mkCamera (Fin x') (Fin y') (Fin w) /\ w == z * d * d.
Proof.
  intros dY cx cy x y z d H1 H2 H3 H4.
  assert (Hd : 0 < d) by (unfold d; destruct (Geometry.Qltb dY 0); reflexivity).
  assert (Hz : ~ z == 0).
  { intro Hz0; assert (E : z * d == 0) by (rewrite Hz0; apply Qmult_0_l); lra. }
  destruct (wheel_fin dY cx cy x y z Hz H1 H2) as [x1 [y1 [w1 [E1 [Hw1 _]]]]].
  change (w1 == z * d) in Hw1.
  assert (Hw10 : ~ w1 == 0).
  { intro Hw0; assert (E : z * d == 0) by (rewrite <- Hw1; exact Hw0); lra. }
  assert (H1' : 1 # 10 <= w1 * d) by (rewrite Hw1; exact H3).
  assert (H2' : w1 * d <= 8) by (rewrite Hw1; exact H4).
  destruct (wheel_fin dY cx cy x1 y1 w1 Hw10 H1' H2') as [x2 [y2 [w2 [E2 [Hw2 _]]]]].
  change (w2 == w1 * d) in Hw2.
  unfold wheel_event; rewrite E1, E2.
  exists x2, y2, w2; split; [reflexivity |].
  rewrite Hw2, Hw1; reflexivity.
Qed.

(** X5. One wheel event in and one out, at the same cursor, restore the
    camera. *)
Theorem wheel_in_then_out_restores_camera :
  forall dIn dOut cx cy x y z,
    dIn < 0 -> 0 <= dOut ->
    1 # 10 <= z -> z * (112 # 100) * (112 # 100) <= 8 ->
    exists x' y' z',
      wheel_event dOut cx cy (wheel_event dIn cx cy (mkCamera (Fin x) (Fin y) (Fin z)))
        = mkCamera (Fin x') (Fin y') (Fin z') /\ x' == x /\ y' == y /\ z' == z.
Proof.
  intros dIn dOut cx cy x y z Hin Hout H1 H2.
  assert (Ein : Geometry.Qltb dIn 0 = true) by (apply Qltb_true; exact Hin).
  assert (Eout : Geometry.Qltb dOut 0 = false) by (apply Qltb_false; exact Hout).
  assert (Hz : ~ z == 0) by (intro; lra).
  set (a := 112 # 100) in *. set (b := 100 # 112).
  pose proof (wheel_fin dIn cx cy x y z Hz) as W1; simpl in W1; rewrite Ein in W1.
  destruct W1 as [x1 [y1 [z1 [E1 [Hz1 [Hx1 Hy1]]]]]]; [unfold a in *; lra | unfold a in *; lra |].
  assert (Hz10 : ~ z1 == 0) by (rewrite Hz1; unfold a; intro; lra).
  pose proof (wheel_fin dIn cx cy x1 y1 z1 Hz10) as W2; simpl in W2; rewrite Ein in W2.
  destruct W2 as [x2 [y2 [z2 [E2 [Hz2 [Hx2 Hy2]]]]]];
    [rewrite Hz1; unfold a in *; lra | rewrite Hz1; unfold a in *; lra |].
  assert (Hz20 : ~ z2 == 0) by (rewrite Hz2, Hz1; unfold a; intro; lra).
  pose proof (wheel_fin dOut cx cy x2 y2 z2 Hz20) as W3; simpl in W3; rewrite Eout in W3.
  destruct W3 as [x3 [y3 [z3 [E3 [Hz3 [Hx3 Hy3]]]]]];
    [rewrite Hz2, Hz1; unfold a in *; lra | rewrite Hz2, Hz1; unfold a in *; lra |].
  assert (Hz30 : ~ z3 == 0) by (rewrite Hz3, Hz2, Hz1; unfold a; intro; lra).
  pose proof (wheel_fin dOut cx cy x3 y3 z3 Hz30) as W4; simpl in W4; rewrite Eout in W4.
  destruct W4 as [x4 [y4 [z4 [E4 [Hz4 [Hx4 Hy4]]]]]];
    [rewrite Hz3, Hz2, Hz1; unfold a in *; lra | rewrite Hz3, Hz2, Hz1; unfold a in *; lra |].
  unfold wheel_event; rewrite E1, E2, E3, E4.
  exists x4, y4, z4; split; [reflexivity |].
  assert (Z4 : z4 == z) by (rewrite Hz4, Hz3, Hz2, Hz1; unfold a; ring).
  split; [| split].
  - rewrite Hx4, Hx3, Hx2, Hx1, Hz3, Hz2, Hz1; unfold a; field; exact Hz.
  - rewrite Hy4, Hy3, Hy2, Hy1, Hz3, Hz2, Hz1; unfold a; field; exact Hz.
  - exact Z4.
Qed.

End CameraExtras.

Module RelayExtras.
Import Js Relay Session Store.
Local Open Scope string_scope.
Local Open Scope list_scope.

(** Number of frames an effect list sends on connection [c]. *)
Fixpoint sends_to (c : nat) (effs : list effect) : nat :=
  match effs with
  | [] => 0
  | Send c' _ :: r => if Nat.eqb c' c then S (sends_to c r) else sends_to c r
  | _ :: r => sends_to c r
  end.

Definition join_msg (room : jsval) : jsval :=
  obj [("type", JStr "join_room"); ("roomId", room)].

Definition leave_msg (room : jsval) : jsval :=
  obj [("type", JStr "leave_room"); ("roomId", room)].

Lemma sends_to_app c l1 l2 : sends_to c (l1 ++ l2) = (sends_to c l1 + sends_to c l2)%nat.
Proof.
  induction l1 as [| e r IH]; simpl; [reflexivity |].
  destruct e; try exact IH. destruct (Nat.eqb conn0 c); simpl; rewrite IH; reflexivity.
Qed.

Lemma sends_to_broadcast c room p users :
  NoDup (map conn users) ->
  sends_to c (broadcastToRoom users room p) =
  if existsb (fun u => Nat.eqb (conn u) c && mem_string room (rooms u)) users then 1%nat
  else 0%nat.
Proof.
  induction users as [| u us IH]; intros Hnd; [reflexivity |].
  simpl in Hnd; inversion Hnd as [| ? ? Hnin Hnd']; subst.
  unfold broadcastToRoom in *; simpl flat_map; rewrite sends_to_app, IH by exact Hnd'.
  simpl existsb.
  destruct (Nat.eqb (conn u) c) eqn:Hc.
  - apply Nat.eqb_eq in Hc; subst c.
    assert (Hno : existsb (fun u0 => Nat.eqb (conn u0) (conn u) && mem_string room (rooms u0)) us
                  = false).
    { apply Bool.not_true_iff_false; intro Hex; apply existsb_exists in Hex.
      destruct Hex as [u' [Hin Hu']]; apply andb_true_iff in Hu'; destruct Hu' as [Hu' _].
      apply Nat.eqb_eq in Hu'; apply Hnin; rewrite <- Hu'; apply in_map; exact Hin. }
    rewrite Hno; destruct (mem_string room (rooms u)); simpl; rewrite ?Nat.eqb_refl; reflexivity.
  - destruct (mem_string room (rooms u)); simpl; rewrite ?Hc; reflexivity.
Qed.

Lemma update_rooms_conns c f users : map conn (update_rooms c f users) = map conn users.
Proof.
  induction users as [| u us IH]; simpl; [reflexivity |].
  destruct (Nat.eqb (conn u) c); simpl; rewrite IH; reflexivity.
Qed.

Lemma update_rooms_id c users : update_rooms c (fun rs => rs) users = users.
Proof.
  induction users as [| [cu uu ru] us IH]; simpl; [reflexivity |].
  destruct (Nat.eqb cu c); rewrite IH; reflexivity.
Qed.

Lemma existsb_update_rooms c f room users :
  existsb (fun u => Nat.eqb (conn u) c && mem_string room (rooms u)) (update_rooms c f users) =
  existsb (fun u => Nat.eqb (conn u) c && mem_string room (f (rooms u))) users.
Proof.
  induction users as [| u us IH]; simpl; [reflexivity |].
  destruct (Nat.eqb (conn u) c) eqn:Hc; simpl; rewrite ?Hc, IH; reflexivity.
Qed.

Lemma mem_string_push room rs : mem_string room ((rs ++ [room])%list) = true.
Proof.
  unfold mem_string; rewrite existsb_app; simpl; rewrite String.eqb_refl, orb_true_r.
  reflexivity.
Qed.

Lemma mem_string_filter room rs :
  mem_string room (filter (fun r => negb (String.eqb r room)) rs) = false.
Proof.
  induction rs as [| r rs IH]; simpl; [reflexivity |].
  destruct (String.eqb r room) eqn:E; simpl; [exact IH |].
  unfold mem_string in *; simpl; rewrite IH, orb_false_r, String.eqb_sym; exact E.
Qed.

Lemma existsb_conn_all c (g : list string -> bool) users :
  In c (map conn users) -> (forall rs, g rs = true) ->
  existsb (fun u => Nat.eqb (conn u) c && g (rooms u)) users = true.
Proof.
  intros Hin Hg; apply in_map_iff in Hin; destruct Hin as [u [Hc Hu]].
  apply existsb_exists; exists u; split; [exact Hu |].
  rewrite Hc, Nat.eqb_refl, Hg; reflexivity.
Qed.

Lemma existsb_conn_none c (g : list string -> bool) users :
  (forall rs, g rs = false) ->
  existsb (fun u => Nat.eqb (conn u) c && g (rooms u)) users = false.
Proof.
  intros Hg; induction users as [| u us IH]; simpl; [reflexivity |].
  rewrite Hg, andb_false_r; exact IH.
Qed.

Lemma handle_index_join c uid db v users :
  fst (handle_index c uid db (join_msg v) users) =
  update_rooms c (fun rs => (rs ++ [to_String v])%list) users.
Proof. reflexivity. Qed.

Lemma handle_index_leave c uid db v users :
  fst (handle_index c uid db (leave_msg v) users) =
  update_rooms c (filter (fun r => negb (String.eqb r (to_String v)))) users.
Proof. reflexivity. Qed.

Lemma handle_007_join jp c uid db v users :
  fst (handle_007 jp c uid db (join_msg v) users) =
  update_rooms c (fun rs => (rs ++ [to_String v])%list) users.
Proof. reflexivity. Qed.

Lemma handle_007_leave jp c uid db v users :
  fst (handle_007 jp c uid db (leave_msg v) users) =
  update_rooms c (filter (fun r => negb (String.eqb r (to_String v)))) users.
Proof. reflexivity. Qed.

Lemma join_delivers c v p users :
  NoDup (map conn users) -> In c (map conn users) ->
  sends_to c (broadcastToRoom (update_rooms c (fun rs => (rs ++ [to_String v])%list) users)
                (to_String v) p) = 1%nat.
Proof.
  intros Hnd Hin.
  rewrite sends_to_broadcast by (rewrite update_rooms_conns; exact Hnd).
  rewrite existsb_update_rooms,
    (existsb_conn_all c (fun rs => mem_string (to_String v) (rs ++ [to_String v])%list));
    [reflexivity | exact Hin |].
  intro; apply mem_string_push.
Qed.

Lemma leave_silences c v p users :
  NoDup (map conn users) ->
  sends_to c (broadcastToRoom
                (update_rooms c (filter (fun r => negb (String.eqb r (to_String v)))) users)
                (to_String v) p) = 0%nat.
Proof.
  intros Hnd.
  rewrite sends_to_broadcast by (rewrite update_rooms_conns; exact Hnd).
  rewrite existsb_update_rooms,
    (existsb_conn_none c (fun rs => mem_string (to_String v)
       (filter (fun r => negb (String.eqb r (to_String v))) rs))); [reflexivity |].
  intro; apply mem_string_filter.
Qed.

(** X6. With connections registered once each, after a [join_room] for a
    room the sender receives exactly one frame of every later broadcast to
    that room (even if it had joined before), and after a [leave_room] none;
    in both relays. *)
Theorem join_leave_delivery :
  forall jp c uid db v p users,
    NoDup (map conn users) -> In c (map conn users) ->
    sends_to c (broadcastToRoom (fst (handle_index c uid db (join_msg v) users))
                  (to_String v) p) = 1%nat /\
    sends_to c (broadcastToRoom (fst (handle_index c uid db (leave_msg v) users))
                  (to_String v) p) = 0%nat /\
    sends_to c (broadcastToRoom (fst (handle_007 jp c uid db (join_msg v) users))
                  (to_String v) p) = 1%nat /\
    sends_to c (broadcastToRoom (fst (handle_007 jp c uid db (leave_msg v) users))
                  (to_String v) p) = 0%nat.
Proof.
  intros jp c uid db v p users Hnd Hin.
  rewrite handle_index_join, handle_index_leave, handle_007_join, handle_007_leave.
  repeat split; first [apply join_delivers | apply leave_silences]; assumption.
Qed.

Ltac split_handler :=
  repeat match goal with
         | |- context [if ?b then _ else _] => destruct b
         | |- context [match ?o with Some _ => _ | None => _ end] => destruct o
         end.

(** X7. A message changes the registered users only in the room list of the
    sender's own connection: no user is added, removed or reordered, and no
    other connection's rooms change; in both relays. *)
Theorem handler_touches_only_sender_rooms :
  forall jp c uid db msg users,
    (exists f, fst (handle_index c uid db msg users) = update_rooms c f users) /\
    (exists f, fst (handle_007 jp c uid db msg users) = update_rooms c f users).
Proof.
  intros; split; [unfold handle_index | unfold handle_007]; cbv zeta; split_handler;
    simpl; first [eexists; reflexivity | exists (fun rs => rs); symmetry; apply update_rooms_id].
Qed.

(** X8. When the awaited persistence call fails, a message other than a
    [delete] sends no frame to anyone, in both relays. *)
Theorem failed_persistence_sends_nothing :
  forall jp c uid db msg users,
    db_ok db = false -> str_eq (get "type" msg) "delete" = false ->
    forallb (fun e => negb (is_send e)) (snd (handle_index c uid db msg users)) = true /\
    forallb (fun e => negb (is_send e)) (snd (handle_007 jp c uid db msg users)) = true.
Proof.
  intros jp c uid db msg users Hdb Hdel.
  split; [unfold handle_index | unfold handle_007]; cbv zeta; rewrite Hdb, Hdel;
    split_handler; try reflexivity.
  simpl; destruct (get "shape" msg); try reflexivity.
  destruct (jp s); reflexivity.
Qed.

(** X9. For a [delete] whose id converts to a number, the two relays behave
    alike: persist the delete, log, and broadcast it to the room. *)
Theorem numeric_delete_same_in_both_relays :
  forall jp c uid db room id n users,
    to_Number id = Some n ->
    handle_index c uid db (delete_msg room id) users =
      handle_007 jp c uid db (delete_msg room id) users /\
    snd (handle_index c uid db (delete_msg room id) users) =
      DbDelete (Some n) :: Log ::
      broadcastToRoom users room
        (obj [("type", JStr "delete"); ("id", id); ("roomId", JStr room)]).
Proof.
  intros jp c uid db room id n users Hn.
  change (handle_index c uid db (delete_msg room id) users) with
    (if is_NaN (to_Number id) then (users, [Log])
     else (users, DbDelete (to_Number id) :: Log ::
             broadcastToRoom users room
               (obj [("type", JStr "delete"); ("id", id); ("roomId", JStr room)]))).
  change (handle_007 jp c uid db (delete_msg room id) users) with
    (users, app (if negb (is_number id) && is_NaN (to_Number id) then [Log]
                 else [DbDelete (to_Number id); Log])
              (broadcastToRoom users room
                 (obj [("type", JStr "delete"); ("id", id); ("roomId", JStr room)]))).
  rewrite Hn; simpl; rewrite andb_false_r; split; reflexivity.
Qed.

(** X10. A [chat] carrying neither a truthy [shape] nor a truthy [message]
    is still persisted as [{message: ...}] by the relay of
    [apps/ws-backend] (and, when stored, broadcast with [shape: null]),
    while the [part_007] relay only logs it. *)
Theorem empty_chat_relays_differ :
  forall jp c uid db msg users,
    str_eq (get "type" msg) "chat" = true ->
    truthy (get "shape" msg) = false -> truthy (get "message" msg) = false ->
    handle_007 jp c uid db msg users = (users, [Log]) /\
    exists rest,
      snd (handle_index c uid db msg users) =
      DbCreate (to_Number (get "roomId" msg)) (obj [("message", get "message" msg)]) uid
        :: rest.
Proof.
  intros jp c uid db msg users Hchat Hs Hm.
  assert (Ht : truthy (get "type" msg) = true)
    by (destruct (get "type" msg); try discriminate; simpl in *;
        destruct s; [discriminate | reflexivity]).
  assert (Hj : str_eq (get "type" msg) "join_room" = false)
    by (destruct (get "type" msg); try discriminate; simpl in *;
        apply String.eqb_eq in Hchat; subst; reflexivity).
  assert (Hl : str_eq (get "type" msg) "leave_room" = false)
    by (destruct (get "type" msg); try discriminate; simpl in *;
        apply String.eqb_eq in Hchat; subst; reflexivity).
  split.
  - unfold handle_007; cbv zeta; rewrite Ht, Hj, Hl, Hchat, Hs, Hm; reflexivity.
  - unfold handle_index; cbv zeta; rewrite Ht, Hj, Hl, Hchat, Hs; simpl.
    destruct (db_ok db); eexists; reflexivity.
Qed.

(** [heartbeat] in closed form: the loop runs from the last user down to
    the first, so the effects come in reverse registration order. *)
Definition hb_of (now : Z) (u : puser) : hb_effect :=
  if stale now u then Terminate (pconn u) else Ping (pconn u).

Lemma remove_at_app {A} (l1 l2 : list A) (x : A) :
  remove_at (List.length l1) (l1 ++ x :: l2) = l1 ++ l2.
Proof.
  unfold remove_at; induction l1 as [| y l1 IH]; simpl; [reflexivity |].
  destruct (splice1 (List.length l1) (l1 ++ x :: l2)) as [o r] eqn:E.
  simpl in *; rewrite IH; reflexivity.
Qed.

Lemma heartbeat_loop_closed now l1 l2 effs :
  heartbeat_loop now (List.length l1) (l1 ++ l2)%list effs =
  ((filter (fun u => negb (stale now u)) l1 ++ l2)%list,
   (effs ++ map (hb_of now) (rev l1))%list).
Proof.
  revert l2 effs; induction l1 as [| u l1 IH] using rev_ind; intros l2 effs.
  - simpl; rewrite app_nil_r; reflexivity.
  - rewrite length_app, Nat.add_1_r; simpl.
    rewrite <- app_assoc; simpl.
    rewrite nth_error_app2, Nat.sub_diag by lia; simpl.
    rewrite filter_app, rev_app_distr; simpl.
    destruct (stale now u) eqn:Hs; simpl.
    + replace (hb_of now u) with (Terminate (pconn u)) by (unfold hb_of; rewrite Hs; reflexivity).
      rewrite remove_at_app, IH, app_nil_r, <- app_assoc; reflexivity.
    + replace (hb_of now u) with (Ping (pconn u)) by (unfold hb_of; rewrite Hs; reflexivity).
      rewrite IH, <- !app_assoc; reflexivity.
Qed.

Lemma heartbeat_closed now users :
  heartbeat now users =
  (filter (fun u => negb (stale now u)) users, map (hb_of now) (rev users)).
Proof.
  unfold heartbeat; rewrite <- (app_nil_r users) at 2.
  rewrite heartbeat_loop_closed, !app_nil_r; reflexivity.
Qed.

(** X11. One [heartbeat] run keeps exactly the users that are not stale, in
    registration order, pings each of them and terminates each stale one,
    visiting the users from the last registered to the first. *)
Theorem heartbeat_keeps_live_users :
  forall now users,
    fst (heartbeat now users) = filter (fun u => negb (stale now u)) users /\
    snd (heartbeat now users) =
      map (fun u => if stale now u then Terminate (pconn u) else Ping (pconn u))
        (rev users).
Proof.
  intros; rewrite heartbeat_closed; split; reflexivity.
Qed.

(** X12. A connection that answered a ping at a time [t] (not 0) survives
    every heartbeat run at most 45 seconds later. *)
Theorem pong_survives_heartbeat :
  forall c t now users,
    In c (map pconn users) -> t <> 0%Z -> (now - t <= 45000)%Z ->
    In c (map pconn (fst (heartbeat now (on_pong c t users)))).
Proof.
  intros c t now users Hin Ht Hle.
  rewrite heartbeat_closed; simpl.
  apply in_map_iff in Hin; destruct Hin as [u [Hc Hu]].
  apply in_map_iff; exists (mkPUser (puser_user u) (Some t)); split; [exact Hc |].
  apply filter_In; split.
  - unfold on_pong; apply in_map_iff; exists u; split; [| exact Hu].
    rewrite Hc, Nat.eqb_refl; reflexivity.
  - unfold stale; simpl.
    apply Z.eqb_neq in Ht; rewrite Ht; simpl.
    destruct (Z.ltb 45000 (now - t)) eqn:E; [apply Z.ltb_lt in E; lia | reflexivity].
Qed.

Lemma findIndex_app_none {A} (p : A -> bool) l x :
  findIndex p l = None -> p x = true -> findIndex p (l ++ [x])%list = Some (List.length l).
Proof.
  induction l as [| y l IH]; simpl; intros Hn Hx; [rewrite Hx; reflexivity |].
  destruct (p y); [discriminate |].
  destruct (findIndex p l); [discriminate |]; rewrite IH; [reflexivity | reflexivity | exact Hx].
Qed.

Lemma findIndex_none {A} (p : A -> bool) l :
  (forall x, In x l -> p x = false) -> findIndex p l = None.
Proof.
  induction l as [| y l IH]; simpl; intros H; [reflexivity |].
  rewrite H by (left; reflexivity).
  rewrite IH by (intros; apply H; right; assumption).
  reflexivity.
Qed.

(** X13. A connection accepted with a non-empty user id and then closed
    leaves the registered users as they were before it connected. *)
Theorem connect_then_close_restores_users :
  forall c uid now users,
    ~ In c (map pconn users) -> uid <> "" ->
    on_close c (on_connection c (Some uid) now users) = users.
Proof.
  intros c uid now users Hnin Huid.
  unfold on_connection; apply String.eqb_neq in Huid; rewrite Huid.
  unfold on_close; rewrite findIndex_app_none.
  - pose proof (remove_at_app users [] (mkPUser (mkUser c uid []) (Some now))) as E.
    rewrite app_nil_r in E; exact E.
  - apply findIndex_none; intros u Hu; apply Nat.eqb_neq; intro E; apply Hnin.
    rewrite <- E; apply in_map; exact Hu.
  - unfold pconn; simpl; apply Nat.eqb_refl.
Qed.

End RelayExtras.

Module StoreExtras.
Import Shapes Store ReorderFacts.
Local Open Scope list_scope.

Lemma findIndex_some {A} (p : A -> bool) l i :
  findIndex p l = Some i -> exists x, nth_error l i = Some x /\ p x = true.
Proof.
  revert i; induction l as [| y l IH]; simpl; intros i H; [discriminate |].
  destruct (p y) eqn:Hy.
  - inversion H; subst; exists y; split; [reflexivity | exact Hy].
  - destruct (findIndex p l) as [j |] eqn:E; simpl in H; [| discriminate].
    inversion H; subst; simpl; apply IH; reflexivity.
Qed.

Lemma findIndex_none_all {A} (p : A -> bool) l :
  findIndex p l = None -> forall x, In x l -> p x = false.
Proof.
  induction l as [| y l IH]; simpl; intros H x Hx; [destruct Hx |].
  destruct (p y) eqn:Hy; [discriminate |].
  destruct (findIndex p l) eqn:E; [discriminate |].
  destruct Hx as [<- | Hx]; [exact Hy | apply IH; auto].
Qed.

Lemma findIndex_existsb {A} (p : A -> bool) l :
  findIndex p l = None <-> existsb p l = false.
Proof.
  induction l as [| y l IH]; simpl; [tauto |].
  destruct (p y); simpl; [split; discriminate |].
  destruct (findIndex p l); simpl; rewrite <- IH; split; congruence.
Qed.

Lemma find_set_nth {A} (p : A -> bool) l i y :
  findIndex p l = Some i -> p y = true -> find p (set_nth i y l) = Some y.
Proof.
  revert i; induction l as [| z l IH]; simpl; intros i H Hy; [discriminate |].
  destruct (p z) eqn:Hz.
  - inversion H; subst; simpl; rewrite Hy; reflexivity.
  - destruct (findIndex p l) as [j |] eqn:E; simpl in H; [| discriminate].
    inversion H; subst; simpl; rewrite Hz; apply IH; auto.
Qed.

Lemma find_app_none {A} (p : A -> bool) l y :
  findIndex p l = None -> find p (l ++ [y]) = find p [y].
Proof.
  induction l as [| z l IH]; simpl; intros H; [reflexivity |].
  destruct (p z); [discriminate |].
  destruct (findIndex p l); [discriminate | apply IH; reflexivity].
Qed.

Lemma map_set_nth {A B} (f : A -> B) i y l :
  map f (set_nth i y l) = set_nth i (f y) (map f l).
Proof.
  revert i; induction l as [| z l IH]; intros [| i]; simpl; rewrite ?IH; reflexivity.
Qed.

Lemma set_nth_same {A} i (y : A) l :
  nth_error l i = Some y -> set_nth i y l = l.
Proof.
  revert i; induction l as [| z l IH]; intros [| i] H; simpl in *; try discriminate.
  - inversion H; reflexivity.
  - rewrite IH; auto.
Qed.

Lemma set_nth_length {A} i (y : A) l : List.length (set_nth i y l) = List.length l.
Proof.
  revert i; induction l as [| z l IH]; intros [| i]; simpl; rewrite ?IH; reflexivity.
Qed.

Lemma set_nth_in {A} i (y : A) l : (i < List.length l)%nat -> In y (set_nth i y l).
Proof.
  revert i; induction l as [| z l IH]; intros [| i] H; simpl in *; try lia.
  - left; reflexivity.
  - right; apply IH; lia.
Qed.

Lemma splice1_nth {A} i (x : A) l :
  nth_error l i = Some x ->
  splice1 i l = (Some x, firstn i l ++ skipn (S i) l) /\
  l = firstn i l ++ x :: skipn (S i) l.
Proof.
  revert i; induction l as [| z l IH]; intros [| i] H; simpl in *; try discriminate.
  - inversion H; subst; split; reflexivity.
  - destruct (IH i H) as [E1 E2]; rewrite E1; split; [reflexivity | f_equal; exact E2].
Qed.

Lemma filter_idem {A} (p : A -> bool) l : filter p (filter p l) = filter p l.
Proof.
  induction l as [| z l IH]; simpl; [reflexivity |].
  destruct (p z) eqn:E; simpl; rewrite ?E, ?IH; reflexivity.
Qed.

(** X14. After a [delete] frame no entry with that id is left, a second
    delivery of the same frame changes nothing, and the deleted id is not
    selected any more. *)
Theorem on_delete_removes_idempotent :
  forall id g,
    ~ In id (ids (on_delete id g)) /\
    on_delete id (on_delete id g) = on_delete id g /\
    selectedShapeId (on_delete id g) <> Some id.
Proof.
  intros id [shapes sel]; unfold on_delete, ids; simpl; split; [| split].
  - intro Hin; apply in_map_iff in Hin; destruct Hin as [s [Hs Hin]].
    apply filter_In in Hin; destruct Hin as [_ Hf].
    rewrite Hs, String.eqb_refl in Hf; discriminate.
  - rewrite filter_idem; f_equal.
    destruct sel as [x |]; [| reflexivity].
    destruct (String.eqb x id) eqn:E; [reflexivity | rewrite E; reflexivity].
  - destruct sel as [x |]; [| discriminate].
    destruct (String.eqb x id) eqn:E; [discriminate |].
    intro H; inversion H; subst; rewrite String.eqb_refl in E; discriminate.
Qed.

(** X15. After an [update] frame the first entry with that id carries the
    new shape; the list of ids is unchanged when the id was present, and
    otherwise gains the id at the end. *)
Theorem on_update_lookup :
  forall id sh g,
    option_map sshape (find (fun s => String.eqb (sid s) id) (existingShapes (on_update id sh g)))
      = Some sh /\
    ids (on_update id sh g) =
      (if existsb (fun s => String.eqb (sid s) id) (existingShapes g) then ids g
       else ids g ++ [id]).
Proof.
  intros id sh [shapes sel]; unfold on_update, ids; simpl.
  destruct (findIndex (fun s => String.eqb (sid s) id) shapes) as [idx |] eqn:Hf.
  - destruct (findIndex_some _ _ _ Hf) as [s [Hn Hs]]; rewrite Hn; simpl.
    assert (Hex : existsb (fun s => String.eqb (sid s) id) shapes = true).
    { apply existsb_exists; exists s; split; [eapply nth_error_In; exact Hn | exact Hs]. }
    rewrite Hex; split.
    + rewrite (find_set_nth _ _ _ _ Hf) by exact Hs; reflexivity.
    + rewrite map_set_nth; simpl; apply set_nth_same.
      rewrite nth_error_map, Hn; reflexivity.
  - apply findIndex_existsb in Hf as Hex; rewrite Hex; simpl; split.
    + rewrite find_app_none by exact Hf; simpl; rewrite String.eqb_refl; reflexivity.
    + rewrite map_app; reflexivity.
Qed.

(** X16. After a [chat] frame the server id is in the store, and the store
    has the same number of entries or one more. *)
Theorem on_chat_registers_server_id :
  forall serverId sh tempId g,
    In serverId (ids (on_chat serverId sh tempId g)) /\
    (List.length (ids (on_chat serverId sh tempId g)) = List.length (ids g) \/
     List.length (ids (on_chat serverId sh tempId g)) = S (List.length (ids g))).
Proof.
  intros serverId sh tempId [shapes sel]; unfold on_chat, ids; simpl.
  assert (Hfb : let fb := if existsb (fun s => String.eqb (sid s) serverId) shapes then shapes
                          else shapes ++ [mkStored serverId sh None] in
                In serverId (map sid fb) /\
                (List.length (map sid fb) = List.length (map sid shapes) \/
                 List.length (map sid fb) = S (List.length (map sid shapes)))).
  { simpl; destruct (existsb (fun s => String.eqb (sid s) serverId) shapes) eqn:E.
    - apply existsb_exists in E; destruct E as [s [Hs Heq]]; apply String.eqb_eq in Heq.
      split; [rewrite <- Heq; apply in_map; exact Hs | left; reflexivity].
    - rewrite map_app, length_app; simpl; split; [apply in_or_app; right; left; reflexivity |].
      right; lia. }
  destruct tempId as [t |]; [| exact Hfb].
  destruct (String.eqb t ""); [exact Hfb |].
  destruct (findIndex _ shapes) as [idx |] eqn:Hf; [| exact Hfb].
  destruct (findIndex_some _ _ _ Hf) as [s [Hn _]].
  rewrite !length_map, set_nth_length; split; [| left; reflexivity].
  change serverId with (sid (mkStored serverId sh None)); apply in_map, set_nth_in.
  apply nth_error_Some; rewrite Hn; discriminate.
Qed.

Lemma bringToFront_some id g :
  In id (ids g) ->
  exists item rest,
    sid item = id /\ Permutation (existingShapes g) (item :: rest) /\
    bringToFront id g =
      (mkGame (rest ++ [item]) (selectedShapeId g),
       [OutReorder (map sid (rest ++ [item]))]).
Proof.
  intros Hin; destruct g as [shapes sel]; unfold bringToFront, ids in *; simpl in *.
  destruct (findIndex (fun s => String.eqb (sid s) id) shapes) as [idx |] eqn:Hf.
  - destruct (findIndex_some _ _ _ Hf) as [s [Hn Hs]].
    destruct (splice1_nth _ _ _ Hn) as [E1 E2]; rewrite E1.
    exists s, (firstn idx shapes ++ skipn (S idx) shapes); split; [apply String.eqb_eq; exact Hs |].
    split; [| reflexivity].
    rewrite E2 at 1; apply Permutation_sym, Permutation_middle.
  - exfalso; apply in_map_iff in Hin; destruct Hin as [s [Hs Hin]].
    pose proof (findIndex_none_all _ _ Hf s Hin) as H; simpl in H; rewrite Hs, String.eqb_refl in H.
    discriminate.
Qed.

(** X17. Bringing a shape that is in the store to the front moves its first
    entry to the end of the list (drawn last, on top), keeps every entry
    and the selection, and sends one [reorder] frame listing the new order
    of ids. *)
Theorem bringToFront_moves_to_top :
  forall id g,
    In id (ids g) ->
    Permutation (existingShapes (fst (bringToFront id g))) (existingShapes g) /\
    last (ids (fst (bringToFront id g))) ""%string = id /\
    snd (bringToFront id g) = [OutReorder (ids (fst (bringToFront id g)))] /\
    selectedShapeId (fst (bringToFront id g)) = selectedShapeId g.
Proof.
  intros id g Hin.
  destruct (bringToFront_some id g Hin) as [item [rest [Hs [Hp E]]]]; rewrite E; simpl.
  split; [| split; [| split; reflexivity]].
  - rewrite Hp; apply Permutation_sym, Permutation_cons_append.
  - unfold ids; simpl; rewrite map_app; simpl; rewrite last_last; exact Hs.
Qed.

Lemma flat_map_map' {A B C} (f : B -> list C) (g : A -> B) l :
  flat_map f (map g l) = flat_map (fun x => f (g x)) l.
Proof. induction l as [| x l IH]; simpl; rewrite ?IH; reflexivity. Qed.

Lemma flat_map_single {A B} (f : A -> B) l : flat_map (fun x => [f x]) l = map f l.
Proof. induction l as [| x l IH]; simpl; rewrite ?IH; reflexivity. Qed.

Lemma flat_map_ext_in' {A B} (f g : A -> list B) l :
  (forall x, In x l -> f x = g x) -> flat_map f l = flat_map g l.
Proof.
  induction l as [| x l IH]; simpl; intros H; [reflexivity |].
  rewrite H by (left; reflexivity); f_equal; apply IH; intros; apply H; right; assumption.
Qed.

Lemma filter_all_false {A} (p : A -> bool) l :
  (forall x, In x l -> p x = false) -> filter p l = [].
Proof.
  induction l as [| x l IH]; simpl; intros H; [reflexivity |].
  rewrite H by (left; reflexivity); apply IH; intros; apply H; right; assumption.
Qed.

(** X18. With distinct ids in the store, a peer holding the same entries that
    applies the [reorder] frame sent by [bringToFront] ends up with the
    sender's new order (entries rebuilt without their [tempId]). *)
Theorem bringToFront_order_replays :
  forall id g,
    NoDup (ids g) -> In id (ids g) ->
    applyRemoteReorder (ids (fst (bringToFront id g))) (existingShapes g) =
    map clear_temp (existingShapes (fst (bringToFront id g))).
Proof.
  intros id g Hnd Hin.
  destruct (bringToFront_some id g Hin) as [item [rest [Hs [Hp E]]]]; rewrite E.
  unfold ids in *; simpl.
  rewrite applyRemoteReorder_nodup by exact Hnd.
  assert (Hp' : Permutation (rest ++ [item]) (existingShapes g))
    by (rewrite Hp; apply Permutation_sym, Permutation_cons_append).
  replace (filter _ (existingShapes g)) with (@nil stored).
  - rewrite app_nil_r, flat_map_map', <- flat_map_single.
    apply flat_map_ext_in'; intros s Hsin.
    rewrite filter_same_id_one; [reflexivity | exact Hnd |].
    eapply Permutation_in; [exact Hp' | exact Hsin].
  - symmetry; apply filter_all_false; intros s Hsin.
    unfold in_order; apply negb_false_iff, existsb_exists; exists (sid s); split.
    + apply in_map; eapply Permutation_in; [apply Permutation_sym; exact Hp' | exact Hsin].
    + apply String.eqb_refl.
Qed.

End StoreExtras.

Module GeometryExtras.
Import Shapes Geometry Store Select ShapeOps GeometryFacts.
Local Open Scope Q_scope.

Ltac case_qltb :=
  repeat match goal with
         | |- context [Qltb ?a ?b] =>
             let E := fresh "E" in
             destruct (Qltb a b) eqn:E; [apply Qltb_true in E | apply Qltb_false in E]
         end.

(** X19. [computeNewBBoxFromHandle] keeps the edges opposite the dragged
    handle where they were: the left edge unless the handle is on the left
    side, the right edge when it is, and likewise for top and bottom. *)
Theorem computeNewBBox_anchored_edges :
  forall o h dx dy,
    let nb := computeNewBBoxFromHandle o h dx dy in
    (left_family h = false -> bx nb == bx o) /\
    (left_family h = true -> bx nb + bw nb == bx o + bw o) /\
    (top_family h = false -> by_ nb == by_ o) /\
    (top_family h = true -> by_ nb + bh nb == by_ o + bh o).
Proof.
  intros o h dx dy nb; unfold nb, computeNewBBoxFromHandle, minSize.
  destruct h; cbn; case_qltb; cbn;
    repeat split; intros Hf; try discriminate; lra.
Qed.

Lemma computeNewBBox_zero o h dx dy :
  6 <= bw o -> 6 <= bh o -> dx == 0 -> dy == 0 ->
  let nb := computeNewBBoxFromHandle o h dx dy in
  bx nb == bx o /\ by_ nb == by_ o /\ bw nb == bw o /\ bh nb == bh o.
Proof.
  intros Hw Hh Hx Hy nb; unfold nb, computeNewBBoxFromHandle, minSize.
  destruct h; cbn; case_qltb; cbn; repeat split; lra.
Qed.

Ltac case_qmax :=
  repeat match goal with
         | |- context [Qmax ?a ?b] =>
             let H1 := fresh "H" in let E := fresh "E" in
             destruct (Q.max_spec a b) as [[H1 E] | [H1 E]]; rewrite E
         end.

(** X20. A resize gesture released where it started gives back the shape
    it began with (equal coordinates) for a rectangle or diamond at least
    6 wide and high, a circle of radius at least 3, and any line or
    arrow. *)
Theorem zero_move_resize_keeps_shape :
  forall measureText h px py x y w hh r st cr x1 y1 x2 y2,
    6 <= w -> 6 <= hh -> 3 <= r ->
    (exists x' y' w' h',
        applyResize measureText (startResize (Rect x y w hh st) px py h) px py
        = Some (Rect x' y' w' h' st) /\ x' == x /\ y' == y /\ w' == w /\ h' == hh) /\
    (exists x' y' w' h',
        applyResize measureText (startResize (Diamond x y w hh cr st) px py h) px py
        = Some (Diamond x' y' w' h' cr st) /\ x' == x /\ y' == y /\ w' == w /\ h' == hh) /\
    (exists x' y' r',
        applyResize measureText (startResize (Circle x y r st) px py h) px py
        = Some (Circle x' y' r' st) /\ x' == x /\ y' == y /\ r' == r) /\
    (exists a b c d,
        applyResize measureText (startResize (Line x1 y1 x2 y2 st) px py h) px py
        = Some (Line a b c d st) /\ a == x1 /\ b == y1 /\ c == x2 /\ d == y2) /\
    (exists a b c d,
        applyResize measureText (startResize (Arrow x1 y1 x2 y2 st) px py h) px py
        = Some (Arrow a b c d st) /\ a == x1 /\ b == y1 /\ c == x2 /\ d == y2).
Proof.
  intros measureText h px py x y w hh r st cr x1 y1 x2 y2 Hw Hh Hr.
  assert (H0x : px - px == 0) by ring; assert (H0y : py - py == 0) by ring.
  unfold startResize, applyResize; cbn [activeHandle startPointer originalShape].
  split; [| split; [| split; [| split]]].
  - cbn [bbox].
    destruct (computeNewBBox_zero (mkBox x y w hh) h _ _ Hw Hh H0x H0y)
      as [Ex [Ey [Ew Eh]]]; cbn in Ex, Ey, Ew, Eh.
    do 4 eexists; split; [reflexivity |].
    repeat split; case_qmax; lra.
  - cbn [bbox].
    set (b := mkBox (x - w / 2) (y - hh / 2) w hh).
    destruct (computeNewBBox_zero b h _ _ Hw Hh H0x H0y) as [Ex [Ey [Ew Eh]]];
      cbn in Ex, Ey, Ew, Eh.
    do 4 eexists; split; [reflexivity |].
    repeat split; [rewrite Ex, Ew; field | rewrite Ey, Eh; field | |];
      case_qmax; lra.
  - cbn [bbox].
    assert (Ea : Qabs r == r) by (apply Qabs_pos; lra).
    assert (Hw2 : 6 <= 2 * Qabs r) by (rewrite Ea; lra).
    set (b := mkBox (x - Qabs r) (y - Qabs r) (2 * Qabs r) (2 * Qabs r)).
    destruct (computeNewBBox_zero b h _ _ Hw2 Hw2 H0x H0y) as [Ex [Ey [Ew Eh]]];
      cbn in Ex, Ey, Ew, Eh.
    rewrite Ea in Ex, Ey, Ew, Eh.
    do 3 eexists; split; [reflexivity |].
    repeat split; [rewrite Ex, Ew; field | rewrite Ey, Eh; field |].
    rewrite Ew, Eh, Q.max_id, (Q.max_l (2 * r) 6) by lra.
    setoid_replace (2 * r / 2) with r by field.
    apply Q.max_r; lra.
  - unfold move_endpoint.
    destruct (left_family h); [| destruct (right_family h); [| destruct (Qltb _ _)]];
      do 4 eexists; (split; [reflexivity |]); repeat split; lra.
  - unfold move_endpoint.
    destruct (left_family h); [| destruct (right_family h); [| destruct (Qltb _ _)]];
      do 4 eexists; (split; [reflexivity |]); repeat split; lra.
Qed.

Lemma Qle_bool_ext a b a' b' : (a <= b <-> a' <= b') -> Qle_bool a b = Qle_bool a' b'.
Proof.
  intros H; apply eq_true_iff_eq; rewrite !Qle_bool_iff; exact H.
Qed.

Lemma Qle_bool_compat a b a' b' : a == a' -> b == b' -> Qle_bool a b = Qle_bool a' b'.
Proof. intros Ha Hb; apply Qle_bool_ext; rewrite Ha, Hb; reflexivity. Qed.

Lemma Qltb_compat a b a' b' : a == a' -> b == b' -> Qltb a b = Qltb a' b'.
Proof. intros Ha Hb; unfold Qltb; rewrite (Qle_bool_compat b a b' a') by assumption; reflexivity. Qed.

Lemma Qeq_bool_compat a b a' b' : a == a' -> b == b' -> Qeq_bool a b = Qeq_bool a' b'.
Proof.
  intros Ha Hb; apply eq_true_iff_eq; rewrite !Qeq_bool_iff, Ha, Hb; reflexivity.
Qed.

Lemma hypot_le_compat a b r a' b' r' :
  a == a' -> b == b' -> r == r' -> hypot_le a b r = hypot_le a' b' r'.
Proof.
  intros Ha Hb Hr; unfold hypot_le.
  rewrite (Qle_bool_compat 0 r 0 r'), (Qle_bool_compat (a * a + b * b) (r * r)
                                          (a' * a' + b' * b') (r' * r'));
    try reflexivity; rewrite ?Ha, ?Hb, ?Hr; reflexivity.
Qed.

Lemma Qle_bool_shift a b d : Qle_bool (a + d) (b + d) = Qle_bool a b.
Proof. apply Qle_bool_ext; split; intro; lra. Qed.

(** The closest-point computation shared by [pointInShape] (line, arrow)
    and the eraser. *)
Definition seg_near (x y x1 y1 x2 y2 r : Q) : bool :=
  let A := x - x1 in let B := y - y1 in let C := x2 - x1 in let D := y2 - y1 in
  let dot := A * C + B * D in
  let len2 := C * C + D * D in
  let param := if Qeq_bool len2 0 then -1 else dot / len2 in
  let '(xx, yy) :=
    if Qltb param 0 then (x1, y1)
    else if Qltb 1 param then (x2, y2)
    else (x1 + param * C, y1 + param * D) in
  hypot_le (x - xx) (y - yy) r.

Lemma seg_near_shift x y x1 y1 x2 y2 r dx dy :
  seg_near (x + dx) (y + dy) (x1 + dx) (y1 + dy) (x2 + dx) (y2 + dy) r =
  seg_near x y x1 y1 x2 y2 r.
Proof.
  unfold seg_near; cbv zeta.
  assert (EA : x + dx - (x1 + dx) == x - x1) by ring.
  assert (EB : y + dy - (y1 + dy) == y - y1) by ring.
  assert (EC : x2 + dx - (x1 + dx) == x2 - x1) by ring.
  assert (ED : y2 + dy - (y1 + dy) == y2 - y1) by ring.
  rewrite (Qeq_bool_compat
             ((x2 + dx - (x1 + dx)) * (x2 + dx - (x1 + dx)) +
              (y2 + dy - (y1 + dy)) * (y2 + dy - (y1 + dy))) 0
             ((x2 - x1) * (x2 - x1) + (y2 - y1) * (y2 - y1)) 0)
    by (rewrite ?EC, ?ED; reflexivity).
  destruct (Qeq_bool ((x2 - x1) * (x2 - x1) + (y2 - y1) * (y2 - y1)) 0).
  - cbn; apply hypot_le_compat; [exact EA | exact EB | reflexivity].
  - set (p' := ((x + dx - (x1 + dx)) * (x2 + dx - (x1 + dx)) +
                (y + dy - (y1 + dy)) * (y2 + dy - (y1 + dy))) /
               ((x2 + dx - (x1 + dx)) * (x2 + dx - (x1 + dx)) +
                (y2 + dy - (y1 + dy)) * (y2 + dy - (y1 + dy)))).
    set (p := ((x - x1) * (x2 - x1) + (y - y1) * (y2 - y1)) /
              ((x2 - x1) * (x2 - x1) + (y2 - y1) * (y2 - y1))).
    assert (Ep : p' == p) by (unfold p', p; rewrite EA, EB, EC, ED; reflexivity).
    rewrite (Qltb_compat p' 0 p 0), (Qltb_compat 1 p' 1 p) by (try exact Ep; reflexivity).
    destruct (Qltb p 0); [| destruct (Qltb 1 p)]; cbn; apply hypot_le_compat;
      try reflexivity; try (rewrite Ep, EC; ring); try (rewrite Ep, ED; ring); ring.
Qed.

Lemma pointInShape_line x y x1 y1 x2 y2 stk p :
  pointInShape x y (Line x1 y1 x2 y2 stk) p =
  seg_near x y x1 y1 x2 y2 (p + match strokeWidth stk with Some sw => sw | None => 4 end).
Proof. reflexivity. Qed.

Lemma pointInShape_arrow x y x1 y1 x2 y2 stk p :
  pointInShape x y (Arrow x1 y1 x2 y2 stk) p =
  seg_near x y x1 y1 x2 y2 (p + match strokeWidth stk with Some sw => sw | None => 4 end).
Proof. reflexivity. Qed.

Definition shift_pt (dx dy : Q) (p : Q * Q) : Q * Q := (fst p + dx, snd p + dy).

Definition bounds_shifted (dx dy : Q) (b b' : Q * Q * Q * Q) : Prop :=
  let '(a, c, e, f) := b in
  let '(a', c', e', f') := b' in
  a' == a + dx /\ c' == c + dy /\ e' == e + dx /\ f' == f + dy.

Lemma path_bounds_step dx dy (acc acc' : Q * Q * Q * Q) p :
  bounds_shifted dx dy acc acc' ->
  bounds_shifted dx dy
    (let '(minx, miny, maxx, maxy) := acc in
     (Qmin minx (fst p), Qmin miny (snd p), Qmax maxx (fst p), Qmax maxy (snd p)))
    (let '(minx, miny, maxx, maxy) := acc' in
     (Qmin minx (fst (shift_pt dx dy p)), Qmin miny (snd (shift_pt dx dy p)),
      Qmax maxx (fst (shift_pt dx dy p)), Qmax maxy (snd (shift_pt dx dy p)))).
Proof.
  destruct acc as [[[a c] e] f], acc' as [[[a' c'] e'] f']; cbn.
  intros [Ha [Hc [He Hf]]].
  rewrite Ha, Hc, He, Hf, !Q.plus_min_distr_r, !Q.plus_max_distr_r.
  repeat split; reflexivity.
Qed.

Lemma path_bounds_shift dx dy p0 rest :
  bounds_shifted dx dy (path_bounds p0 rest)
    (path_bounds (shift_pt dx dy p0) (map (shift_pt dx dy) rest)).
Proof.
  unfold path_bounds.
  assert (H : forall acc acc', bounds_shifted dx dy acc acc' ->
            bounds_shifted dx dy
              (fold_left (fun acc p =>
                 let '(minx, miny, maxx, maxy) := acc in
                 (Qmin minx (fst p), Qmin miny (snd p), Qmax maxx (fst p), Qmax maxy (snd p)))
                 rest acc)
              (fold_left (fun acc p =>
                 let '(minx, miny, maxx, maxy) := acc in
                 (Qmin minx (fst p), Qmin miny (snd p), Qmax maxx (fst p), Qmax maxy (snd p)))
                 (map (shift_pt dx dy) rest) acc')).
  { induction rest as [| q rest IH]; intros acc acc' Hacc; cbn [fold_left map]; [exact Hacc |].
    apply IH, path_bounds_step, Hacc. }
  apply H; cbn; repeat split; reflexivity.
Qed.

Lemma translate_pencil path sw c dx dy :
  translateShape (Pencil path sw c) dx dy = Pencil (map (shift_pt dx dy) path) sw c.
Proof. reflexivity. Qed.

(** The bounding box of a translated shape. *)
Lemma translate_bbox_shift :
  forall sh dx dy,
    (forall sw c, sh <> Pencil [] sw c) ->
    bx (bbox (translateShape sh dx dy)) == bx (bbox sh) + dx /\
    by_ (bbox (translateShape sh dx dy)) == by_ (bbox sh) + dy /\
    bw (bbox (translateShape sh dx dy)) == bw (bbox sh) /\
    bh (bbox (translateShape sh dx dy)) == bh (bbox sh).
Proof.
  intros sh dx dy Hne; destruct sh as [x y w h st | cx cy r st | path sw c
    | x1 y1 x2 y2 st | x1 y1 x2 y2 st | cx cy w h cr st | x y w h t fs ff lh ta va st].
  - cbn; repeat split; ring.
  - cbn; repeat split; ring.
  - rewrite translate_pencil; destruct path as [| p0 rest]; [exfalso; eapply Hne; reflexivity |].
    cbn [map bbox].
    pose proof (path_bounds_shift dx dy p0 rest) as Hb.
    destruct (path_bounds p0 rest) as [[[a b] e] f].
    destruct (path_bounds (shift_pt dx dy p0) (map (shift_pt dx dy) rest))
      as [[[a' b'] e'] f'].
    destruct Hb as [Ha [Hb' [He Hf]]]; cbn.
    rewrite Ha, Hb', He, Hf; repeat split; ring.
  - cbn [translateShape bbox bx by_ bw bh]; rewrite !Q.plus_min_distr_r.
    setoid_replace (x2 + dx - (x1 + dx)) with (x2 - x1) by ring.
    setoid_replace (y2 + dy - (y1 + dy)) with (y2 - y1) by ring.
    repeat split; reflexivity.
  - cbn [translateShape bbox bx by_ bw bh]; rewrite !Q.plus_min_distr_r.
    setoid_replace (x2 + dx - (x1 + dx)) with (x2 - x1) by ring.
    setoid_replace (y2 + dy - (y1 + dy)) with (y2 - y1) by ring.
    repeat split; reflexivity.
  - cbn; repeat split; ring.
  - cbn; repeat split; ring.
Qed.

(** X21. Dragging a shape by [(dx, dy)] ([translateShape]) moves its
    bounding box by [(dx, dy)] and keeps its width and height, for every
    shape but a pencil with an empty path (whose box stays at the
    origin). *)
Theorem translateShape_moves_bbox :
  forall sh dx dy,
    (forall sw c, sh <> Pencil [] sw c) ->
    bx (bbox (translateShape sh dx dy)) == bx (bbox sh) + dx /\
    by_ (bbox (translateShape sh dx dy)) == by_ (bbox sh) + dy /\
    bw (bbox (translateShape sh dx dy)) == bw (bbox sh) /\
    bh (bbox (translateShape sh dx dy)) == bh (bbox sh).
Proof. exact translate_bbox_shift. Qed.

Ltac bool_lra :=
  apply eq_true_iff_eq; rewrite ?andb_true_iff, ?Qle_bool_iff, ?Qabs_Qle_condition;
  split; intro Hb; repeat match goal with H : _ /\ _ |- _ => destruct H end;
  repeat split; lra.

Lemma pointInShape_translate x y sh dx dy p :
  pointInShape (x + dx) (y + dy) (translateShape sh dx dy) p = pointInShape x y sh p.
Proof.
  destruct sh as [sx sy w h st | cx cy r st | path sw c
    | x1 y1 x2 y2 st | x1 y1 x2 y2 st | cx cy w h cr st | sx sy w h t fs ff lh ta va st].
  - cbn [translateShape pointInShape]; bool_lra.
  - cbn [translateShape pointInShape]; apply hypot_le_compat; [ring | ring | reflexivity].
  - rewrite translate_pencil; destruct path as [| p0 rest]; [reflexivity |].
    cbn [map pointInShape].
    pose proof (path_bounds_shift dx dy p0 rest) as Hs.
    destruct (path_bounds p0 rest) as [[[a b] e] f].
    destruct (path_bounds (shift_pt dx dy p0) (map (shift_pt dx dy) rest))
      as [[[a' b'] e'] f'].
    destruct Hs as [Ha [Hb' [He Hf]]]; bool_lra.
  - rewrite pointInShape_line; cbn [translateShape]; rewrite pointInShape_line.
    apply seg_near_shift.
  - rewrite pointInShape_arrow; cbn [translateShape]; rewrite pointInShape_arrow.
    apply seg_near_shift.
  - cbn [translateShape pointInShape]; bool_lra.
  - cbn [translateShape pointInShape]; bool_lra.
Qed.

Lemma find_fst_ext {A B} (p p' : A * B -> bool) l l' :
  Forall2 (fun a a' => fst a = fst a' /\ p a = p' a') l l' ->
  option_map fst (find p l) = option_map fst (find p' l').
Proof.
  induction 1 as [| a a' l l' [Hf Hp] _ IH]; cbn; [reflexivity |].
  rewrite Hp; destruct (p' a'); [cbn; rewrite Hf; reflexivity | exact IH].
Qed.

Lemma hit_handle_shift x y sh sh' dx dy :
  bx (bbox sh') == bx (bbox sh) + dx -> by_ (bbox sh') == by_ (bbox sh) + dy ->
  bw (bbox sh') == bw (bbox sh) -> bh (bbox sh') == bh (bbox sh) ->
  hit_handle (x + dx) (y + dy) sh' = hit_handle x y sh.
Proof.
  intros Hx Hy Hw Hh; unfold hit_handle, selectHandleSize.
  assert (Hw2 : bw (bbox sh') / 2 == bw (bbox sh) / 2) by (rewrite Hw; reflexivity).
  assert (Hh2 : bh (bbox sh') / 2 == bh (bbox sh) / 2) by (rewrite Hh; reflexivity).
  symmetry; apply find_fst_ext; unfold handlesFor.
  repeat (apply Forall2_cons; [cbn [fst snd]; split; [reflexivity | bool_lra] |]).
  apply Forall2_nil.
Qed.

(** X22. The point grabbed when a drag starts is still on the shape at the
    end of the drag: moving the pointer and the shape by the same
    [(dx, dy)] leaves the handle hit and the interior test unchanged (for
    every shape but a pencil with an empty path). *)
Theorem translate_keeps_hits :
  forall x y sh dx dy p,
    (forall sw c, sh <> Pencil [] sw c) ->
    hit_handle (x + dx) (y + dy) (translateShape sh dx dy) = hit_handle x y sh /\
    pointInShape (x + dx) (y + dy) (translateShape sh dx dy) p = pointInShape x y sh p.
Proof.
  intros x y sh dx dy p Hne; split; [| apply pointInShape_translate].
  destruct (translate_bbox_shift sh dx dy Hne) as [Hx [Hy [Hw Hh]]].
  apply hit_handle_shift; assumption.
Qed.

Lemma find_some_split {A} (p : A -> bool) l s :
  find p l = Some s ->
  exists a b, l = a ++ s :: b /\ p s = true /\ forall z, In z a -> p z = false.
Proof.
  induction l as [| y l IH]; cbn; intros H; [discriminate |].
  destruct (p y) eqn:Hy.
  - inversion H; subst; exists [], l; split; [reflexivity | split; [exact Hy | intros z []]].
  - destruct (IH H) as [a [b [E [Hs Ha]]]]; exists (y :: a), b; split; [rewrite E; reflexivity |].
    split; [exact Hs |]; intros z [<- | Hz]; [exact Hy | apply Ha, Hz].
Qed.

Lemma find_none_iff {A} (p : A -> bool) l :
  find p l = None <-> forall z, In z l -> p z = false.
Proof.
  induction l as [| y l IH]; cbn; [split; [intros _ z [] | reflexivity] |].
  destruct (p y) eqn:Hy; split.
  - discriminate.
  - intros H; rewrite H in Hy by (left; reflexivity); discriminate.
  - intros H z [<- | Hz]; [exact Hy | apply IH; assumption].
  - intros H; apply IH; intros z Hz; apply H; right; exact Hz.
Qed.

Lemma find_rev_topmost {A} (p : A -> bool) l s :
  find p (rev l) = Some s ->
  exists pre post, l = pre ++ s :: post /\ p s = true /\ forall z, In z post -> p z = false.
Proof.
  intros H; destruct (find_some_split p (rev l) s H) as [a [b [E [Hs Ha]]]].
  exists (rev b), (rev a); split; [| split; [exact Hs |]].
  - rewrite <- (rev_involutive l), E, rev_app_distr; cbn; rewrite <- app_assoc; reflexivity.
  - intros z Hz; apply Ha; apply in_rev; exact Hz.
Qed.

(** What [findAt] tests on one entry: a handle of its box, else its
    interior with the default padding; and the part it reports. *)
Definition sel_hit (x y : Q) (s : stored) : bool :=
  match hit_handle x y (sshape s) with
  | Some _ => true
  | None => pointInShape x y (sshape s) default_padding
  end.

Definition sel_part (x y : Q) (s : stored) : part :=
  match hit_handle x y (sshape s) with Some h => Handle h | None => Inside end.

Lemma findAt_find x y st :
  findAt x y st = option_map (fun s => (sid s, sel_part x y s)) (find (sel_hit x y) (rev st)).
Proof.
  unfold findAt; generalize (rev st) as l.
  assert (Hsome : forall l a, fold_left (fun acc s =>
               match acc with
               | Some _ => acc
               | None =>
                   match hit_handle x y (sshape s) with
                   | Some h => Some (sid s, Handle h)
                   | None =>
                       if pointInShape x y (sshape s) default_padding
                       then Some (sid s, Inside) else None
                   end
               end) l (Some a) = Some a).
  { induction l as [| s l IH]; intros a; cbn; [reflexivity | apply IH]. }
  induction l as [| s l IH]; cbn; [reflexivity |].
  unfold sel_hit, sel_part.
  destruct (hit_handle x y (sshape s)) eqn:Eh; cbn; rewrite ?Eh; [apply Hsome |].
  destruct (pointInShape x y (sshape s) default_padding); cbn; rewrite ?Eh;
    [apply Hsome | exact IH].
Qed.

(** X23. [findAt] reports the topmost entry hit (the last in the list), by a
    handle before its interior, and reports nothing exactly when no entry
    is hit. *)
Theorem findAt_topmost :
  forall x y st,
    (findAt x y st = None <-> forall s, In s st -> sel_hit x y s = false) /\
    (forall id pt, findAt x y st = Some (id, pt) ->
       exists pre s post,
         st = pre ++ s :: post /\ sid s = id /\ sel_hit x y s = true /\
         pt = sel_part x y s /\ forall s', In s' post -> sel_hit x y s' = false).
Proof.
  intros x y st; rewrite findAt_find; split.
  - destruct (find (sel_hit x y) (rev st)) eqn:E; cbn; split; try discriminate.
    + intros H; destruct (find_some_split _ _ _ E) as [a [b [Eab [Hs _]]]].
      rewrite H in Hs; [discriminate |].
      apply in_rev; rewrite Eab; apply in_or_app; right; left; reflexivity.
    + intros _ s Hs; apply (proj1 (find_none_iff _ (rev st)) E); apply in_rev.
      rewrite rev_involutive; exact Hs.
    + intros _; reflexivity.
  - intros id pt H; destruct (find (sel_hit x y) (rev st)) as [s |] eqn:E; cbn in H;
      [| discriminate].
    inversion H; subst.
    destruct (find_rev_topmost _ _ _ E) as [pre [post [Est [Hs Hpost]]]].
    exists pre, s, post; repeat split; assumption.
Qed.

(** X24. The eraser ([Eraser.findShapeAt]) removes the topmost entry it
    hits, and finds nothing exactly when it hits no entry. *)
Theorem findShapeAt_topmost :
  forall size x y st,
    (findShapeAt size x y st = None <->
       forall s, In s st -> eraser_hit size x y (sshape s) = false) /\
    (forall id, findShapeAt size x y st = Some id ->
       exists pre s post,
         st = pre ++ s :: post /\ sid s = id /\ eraser_hit size x y (sshape s) = true /\
         forall s', In s' post -> eraser_hit size x y (sshape s') = false).
Proof.
  intros size x y st; unfold findShapeAt; split.
  - destruct (find (fun s => eraser_hit size x y (sshape s)) (rev st)) eqn:E; cbn;
      split; try discriminate.
    + intros H; destruct (find_some_split _ _ _ E) as [a [b [Eab [Hs _]]]].
      rewrite H in Hs; [discriminate |].
      apply in_rev; rewrite Eab; apply in_or_app; right; left; reflexivity.
    + intros _ s Hs; apply (proj1 (find_none_iff _ (rev st)) E); apply in_rev.
      rewrite rev_involutive; exact Hs.
    + intros _; reflexivity.
  - intros id H; destruct (find (fun s => eraser_hit size x y (sshape s)) (rev st))
      as [s |] eqn:E; cbn in H; [| discriminate].
    inversion H; subst.
    destruct (find_rev_topmost _ _ _ E) as [pre [post [Est [Hs Hpost]]]].
    exists pre, s, post; repeat split; assumption.
Qed.

(** X25. A rectangle drawn by dragging leftwards or upwards keeps its
    negative width or height, and the eraser can then never hit it. *)
Theorem reversed_rect_not_erasable :
  forall sqrt sx sy wx wy sw sc size x y,
    wx < sx \/ wy < sy ->
    exists sh, drag_shape sqrt TRect sx sy wx wy sw sc = Some sh /\
               eraser_hit size x y sh = false.
Proof.
  intros sqrt sx sy wx wy sw sc size x y Hrev.
  eexists; split; [reflexivity |]; cbn [eraser_hit].
  apply not_true_iff_false; rewrite !andb_true_iff, !Qle_bool_iff.
  intros [[[H1 H2] H3] H4]; destruct Hrev; lra.
Qed.

End GeometryExtras.

Module FreehandExtras.
Import Geometry Freehand Stroke FreehandFacts GeometryFacts.
Local Open Scope Q_scope.

(** [r] keeps some of the points of [l], in the same order. *)
Inductive sublist {A} : list A -> list A -> Prop :=
| sl_nil : sublist [] []
| sl_skip x r l : sublist r l -> sublist r (x :: l)
| sl_take x r l : sublist r l -> sublist (x :: r) (x :: l).

Lemma sublist_nil_l {A} (l : list A) : sublist [] l.
Proof. induction l; constructor; assumption. Qed.

Lemma sublist_refl {A} (l : list A) : sublist l l.
Proof. induction l; [apply sl_nil | apply sl_take; assumption]. Qed.

Lemma sublist_nil_r {A} (r : list A) : sublist r [] -> r = [].
Proof. inversion 1; reflexivity. Qed.

Lemma sublist_app {A} (a b c d : list A) :
  sublist a b -> sublist c d -> sublist (a ++ c) (b ++ d).
Proof.
  induction 1; intros Hcd; cbn; [exact Hcd | apply sl_skip; auto | apply sl_take; auto].
Qed.

Lemma sublist_removelast {A} (r l : list A) :
  sublist r l -> sublist (removelast r) (removelast l).
Proof.
  induction 1 as [| x r l H IH | x r l H IH].
  - constructor.
  - destruct l as [| y l].
    + apply sublist_nil_r in H; subst; constructor.
    + change (removelast (x :: y :: l)) with (x :: removelast (y :: l)); apply sl_skip; exact IH.
  - destruct r as [| z r].
    + apply sublist_nil_l.
    + destruct l as [| y l]; [apply sublist_nil_r in H; discriminate |].
      change (removelast (x :: z :: r)) with (x :: removelast (z :: r)).
      change (removelast (x :: y :: l)) with (x :: removelast (y :: l)).
      apply sl_take; exact IH.
Qed.

Lemma sublist_ends {A} (l : list A) d :
  (2 <= List.length l)%nat -> sublist [hd d l; last l d] l.
Proof.
  intros Hl; destruct l as [| x l]; cbn in Hl; [lia |].
  cbn [hd]; apply sl_take.
  destruct l as [| y l]; cbn in Hl; [lia |].
  clear Hl; revert y; induction l as [| z l IH]; intros y.
  - cbn; apply sl_take, sl_nil.
  - change (last (x :: y :: z :: l) d) with (last (z :: l) d).
    change (last (x :: z :: l) d) with (last (z :: l) d) in IH.
    apply sl_skip; apply IH.
Qed.

Lemma rdp_fuel_sublist fuel : forall points epsilon r,
  simplifyRDP_fuel fuel points epsilon = Some r -> sublist r points.
Proof.
  induction fuel as [| f IH]; intros points epsilon r E; simpl in E.
  - destruct (Nat.ltb (List.length points) 3); [| discriminate].
    inversion E; apply sublist_refl.
  - destruct (Nat.ltb (List.length points) 3) eqn:Hlt; [inversion E; apply sublist_refl |].
    apply Nat.ltb_ge in Hlt.
    destruct (scan 1 (firstn (List.length points - 2) (tl points))
                (hd (0, 0) points) (last points (0, 0)) 0 0) as [index dmax2] eqn:Hs.
    assert (Hidx : (index < List.length points)%nat).
    { apply scan_range in Hs as [[-> _] | Hr]; [lia |].
      rewrite length_firstn in Hr; destruct points; cbn in Hr, Hlt |- *; lia. }
    destruct (exceeds dmax2 epsilon).
    + destruct (simplifyRDP_fuel f (firstn (index + 1) points) epsilon) as [r1 |] eqn:E1;
        [| discriminate].
      destruct (simplifyRDP_fuel f (skipn index points) epsilon) as [r2 |] eqn:E2;
        [| discriminate].
      inversion E; subst r.
      rewrite <- (firstn_skipn index points).
      apply sublist_app; [| exact (IH _ _ _ E2)].
      rewrite <- removelast_firstn by exact Hidx; rewrite <- Nat.add_1_r.
      apply sublist_removelast, (IH _ _ _ E1).
    + inversion E; apply sublist_ends; lia.
Qed.

(** X26. The simplified stroke only keeps points of the drawn one, in the
    order they were drawn. *)
Theorem simplifyRDP_keeps_drawn_points :
  forall points epsilon r,
    simplifyRDP points epsilon = Some r -> sublist r points.
Proof. intros points epsilon r; apply rdp_fuel_sublist. Qed.

(** Consecutive points more than 0.5 apart. *)
Fixpoint spaced (l : list point) : Prop :=
  match l with
  | a :: ((b :: _) as r) => 1 # 4 < pointDistance2 a b /\ spaced r
  | _ => True
  end.

Lemma spaced_snoc l p q :
  spaced l -> last_error l = Some q -> 1 # 4 < pointDistance2 q p -> spaced (l ++ [p]).
Proof.
  induction l as [| a l IH]; intros Hs Hl Hd; [discriminate |].
  destruct l as [| b l].
  - cbn in Hl; inversion Hl; subst; cbn; split; [exact Hd | exact I].
  - destruct Hs as [Hab Hs]; cbn [app]; split; [exact Hab |].
    apply IH; [exact Hs | | exact Hd].
    rewrite <- Hl; symmetry; apply (last_error_cons a (b :: l)); discriminate.
Qed.

Definition stroke_inv (press : point) (pc : pencil) : Prop :=
  hd_error (points pc) = Some press /\ spaced (points pc) /\
  smoothed pc = updateSmoothed (points pc).

Lemma addPoint_inv press pc x y :
  stroke_inv press pc -> stroke_inv press (addPoint x y pc).
Proof.
  intros [Hh [Hs Hm]]; unfold addPoint.
  destruct (rev (points pc)) as [| q rest] eqn:Er.
  - apply (f_equal (@rev point)) in Er; rewrite rev_involutive in Er.
    rewrite Er in Hh; discriminate.
  - destruct (Qltb (1 # 4) (pointDistance2 q (x, y))) eqn:Hd; [| split; auto].
    apply Qltb_true in Hd; split; [| split]; cbn [points smoothed]; [| | reflexivity].
    + destruct (points pc); [discriminate | exact Hh].
    + apply (spaced_snoc _ _ q Hs); [unfold last_error; rewrite Er; reflexivity | exact Hd].
Qed.

Lemma draw_stroke_inv press moves : stroke_inv press (draw_stroke press moves).
Proof.
  unfold draw_stroke.
  assert (H0 : stroke_inv press (addPoint (fst press) (snd press) new_pencil)).
  { destruct press as [px py]; split; [reflexivity | split; [exact I | reflexivity]]. }
  revert H0; generalize (addPoint (fst press) (snd press) new_pencil).
  induction moves as [| m moves IH]; intros pc Hpc; cbn; [exact Hpc |].
  apply IH, addPoint_inv, Hpc.
Qed.

(** X27. A freehand gesture (press, then the moves) records the press point
    first and keeps consecutive recorded points more than 0.5 apart; the
    path it commits ([smoothed]) is a sub-list of the recorded points that
    starts at the press point and ends at the last recorded point. *)
Theorem draw_stroke_path :
  forall press moves,
    let pc := draw_stroke press moves in
    hd_error (points pc) = Some press /\ spaced (points pc) /\
    exists r, smoothed pc = Some r /\ sublist r (points pc) /\
              hd_error r = Some press /\ last_error r = last_error (points pc).
Proof.
  intros press moves pc.
  destruct (draw_stroke_inv press moves) as [Hh [Hs Hm]]; fold pc in Hh, Hs, Hm.
  split; [exact Hh | split; [exact Hs |]].
  rewrite Hm; unfold updateSmoothed.
  destruct (Nat.ltb (List.length (points pc)) 2).
  - exists (points pc); repeat split; [apply sublist_refl | exact Hh].
  - unfold simplifyRDP.
    assert (He : 0 <= 3 # 2) by (unfold Qle; cbn; lia).
    destruct (rdp_fuel_endpoints (3 # 2) He (List.length (points pc)) (points pc) (le_n _))
      as [r [E [H1 [H2 _]]]].
    exists r; split; [exact E | split; [exact (rdp_fuel_sublist _ _ _ _ E) |]].
    split; [rewrite H1; exact Hh | exact H2].
Qed.

End FreehandExtras.

Module JoinRoomExtras.
Import JoinRoom.

(** X28. The [catch] block of [JoinRoomModal.handleSubmit] always shows the
    "room not found" message: its condition ends in [|| 204], which is
    truthy, so the "unexpected error" branch is never taken. *)
Theorem catch_always_not_found :
  forall isAxiosError status,
    catch_message isAxiosError status = not_found_msg /\
    catch_message isAxiosError status <> unexpected_msg.
Proof.
  intros isAxiosError status; unfold catch_message; cbn; rewrite orb_true_r.
  split; [reflexivity | discriminate].
Qed.

End JoinRoomExtras.

Module Witnesses.
Import Shapes Store Geometry Freehand Camera.
Import StoreFacts ReorderFacts GeometryFacts FreehandFacts CameraFacts.
Local Open Scope Q_scope.

Definition box_rect : shape := Rect 0 0 10 10 no_stroke.

Lemma resize_box_shapes_min_size_witness :
  is_box_shape box_rect = true /\
  match applyResize mono_measure
          (mkResize (Some HSE) (Some (0, 0)) (Some box_rect)) (-20) (-20) with
  | Some sh' => 6 <= bw (bbox sh') /\ 6 <= bh (bbox sh')
  | None => False
  end.
Proof.
  split; [reflexivity |].
  apply (resize_box_shapes_min_size mono_measure HSE 0 0 box_rect (-20) (-20)).
  reflexivity.
Defined.

Definition stroke_pts : list point := [(0, 0); (1, 5); (2, 0); (3, 1); (4, 0)].

Lemma simplifyRDP_keeps_endpoints_witness :
  0 <= 3 # 2 /\
  exists r, simplifyRDP stroke_pts (3 # 2) = Some r /\
            hd_error r = hd_error stroke_pts /\
            last_error r = last_error stroke_pts.
Proof.
  split; [vm_compute; discriminate |].
  apply (simplifyRDP_keeps_endpoints stroke_pts (3 # 2)).
  vm_compute; discriminate.
Defined.

Definition store_ab : list stored :=
  [mkStored "a" r0 (Some "a"%string); mkStored "b" r1 None].

Lemma store_ab_nodup : NoDup (map sid store_ab).
Proof.
  simpl; constructor.
  - simpl; intros [H | []]; discriminate.
  - constructor; [intros [] | constructor].
Qed.

Lemma reorder_keeps_ids_and_orders_witness :
  NoDup (map sid store_ab) /\
  applyRemoteReorder ["b"; "a"]%string store_ab =
  flat_map (fun id => map clear_temp (filter (same_id id) store_ab)) ["b"; "a"]%string
  ++ filter (fun s => negb (in_order ["b"; "a"]%string (sid s))) store_ab.
Proof.
  split; [exact store_ab_nodup |].
  exact (proj2 (reorder_keeps_ids_and_orders ["b"; "a"]%string store_ab) store_ab_nodup).
Defined.

Lemma reorder_rebuilds_mentioned_entries_witness :
  NoDup (map sid store_ab) /\
  In (mkStored "a" r0 (Some "a"%string)) store_ab /\
  In (mkStored "a" r0 None) (applyRemoteReorder ["a"]%string store_ab).
Proof.
  assert (Hin : In (mkStored "a" r0 (Some "a"%string)) store_ab) by (left; reflexivity).
  split; [exact store_ab_nodup |]; split; [exact Hin |].
  exact (proj1 (reorder_rebuilds_mentioned_entries ["a"]%string store_ab
                  store_ab_nodup _ Hin)).
Defined.

Lemma setZoom_in_range_witness :
  Fin 20 <> NaN /\ in_zoom_range (zoom (setZoom (Fin 20) (Some (Fin 5, Fin 5)) camera0)).
Proof.
  split; [discriminate |].
  apply setZoom_in_range; discriminate.
Defined.

End Witnesses.

Module ExtraWitnesses.
Import Js Relay Session Shapes Store Geometry Select Freehand Camera CameraOps ShapeOps.
Import RelayFacts ReorderFacts.
Import CameraExtras RelayExtras StoreExtras GeometryExtras FreehandExtras.
Local Open Scope Q_scope.
Local Open Scope string_scope.
Local Open Scope list_scope.

Lemma two_neq_0 : ~ 2 == 0.
Proof. unfold Qeq; simpl; discriminate. Qed.

Lemma screen_world_round_trip_witness :
  ~ 2 == 0 /\
  (let c := mkCamera (Fin 0) (Fin 0) (Fin 2) in
   (exists a b sx' sy',
       screenToWorld c (Fin 10) (Fin 20) = (Fin a, Fin b) /\
       worldToScreen c (Fin a) (Fin b) = (Fin sx', Fin sy') /\ sx' == 10 /\ sy' == 20) /\
   (exists a b wx' wy',
       worldToScreen c (Fin 3) (Fin 4) = (Fin a, Fin b) /\
       screenToWorld c (Fin a) (Fin b) = (Fin wx', Fin wy') /\ wx' == 3 /\ wy' == 4)).
Proof.
  split; [exact two_neq_0 |].
  exact (screen_world_round_trip 0 0 2 10 20 3 4 two_neq_0).
Defined.

Lemma setZoom_keeps_point_under_cursor_witness :
  ~ 2 == 0 /\
  (let c := mkCamera (Fin 0) (Fin 0) (Fin 2) in
   exists a b a' b',
     screenToWorld c (Fin 10) (Fin 20) = (Fin a, Fin b) /\
     screenToWorld (setZoom (Fin 4) (Some (Fin 10, Fin 20)) c) (Fin 10) (Fin 20)
       = (Fin a', Fin b') /\ a' == a /\ b' == b).
Proof.
  split; [exact two_neq_0 |].
  exact (setZoom_keeps_point_under_cursor 0 0 2 4 10 20 two_neq_0).
Defined.

Lemma pan_drag_keeps_grabbed_point_witness :
  ~ 2 == 0 /\
  (let c := mkCamera (Fin 0) (Fin 0) (Fin 2) in
   exists a b a' b',
     screenToWorld c (Fin 10) (Fin 20) = (Fin a, Fin b) /\
     screenToWorld (pan_drag (Fin 0, Fin 0) (Fin 10, Fin 20) (Fin 15, Fin 25) c)
       (Fin 15) (Fin 25) = (Fin a', Fin b') /\ a' == a /\ b' == b).
Proof.
  split; [exact two_neq_0 |].
  exact (pan_drag_keeps_grabbed_point 0 0 2 10 20 15 25 two_neq_0).
Defined.

Lemma wheel_event_applies_step_twice_witness :
  1 # 10 <= 1 * (112 # 100) /\ 1 * (112 # 100) <= 8 /\
  1 # 10 <= 1 * (112 # 100) * (112 # 100) /\ 1 * (112 # 100) * (112 # 100) <= 8 /\
  exists x' y' w,
    wheel_event (-1) 10 20 (mkCamera (Fin 0) (Fin 0) (Fin 1))
      = mkCamera (Fin x') (Fin y') (Fin w) /\ w == 1 * (112 # 100) * (112 # 100).
Proof.
  assert (H1 : 1 # 10 <= 1 * (112 # 100)) by (vm_compute; discriminate).
  assert (H2 : 1 * (112 # 100) <= 8) by (vm_compute; discriminate).
  assert (H3 : 1 # 10 <= 1 * (112 # 100) * (112 # 100)) by (vm_compute; discriminate).
  assert (H4 : 1 * (112 # 100) * (112 # 100) <= 8) by (vm_compute; discriminate).
  split; [exact H1 | split; [exact H2 | split; [exact H3 | split; [exact H4 |]]]].
  exact (wheel_event_applies_step_twice (-1) 10 20 0 0 1 H1 H2 H3 H4).
Defined.

Lemma wheel_in_then_out_restores_camera_witness :
  -1 < 0 /\ 0 <= 1 /\ 1 # 10 <= 1 /\ 1 * (112 # 100) * (112 # 100) <= 8 /\
  exists x' y' z',
    wheel_event 1 10 20 (wheel_event (-1) 10 20 (mkCamera (Fin 0) (Fin 0) (Fin 1)))
      = mkCamera (Fin x') (Fin y') (Fin z') /\ x' == 0 /\ y' == 0 /\ z' == 1.
Proof.
  assert (H1 : -1 < 0) by (vm_compute; reflexivity).
  assert (H2 : 0 <= 1) by (vm_compute; discriminate).
  assert (H3 : 1 # 10 <= 1) by (vm_compute; discriminate).
  assert (H4 : 1 * (112 # 100) * (112 # 100) <= 8) by (vm_compute; discriminate).
  split; [exact H1 | split; [exact H2 | split; [exact H3 | split; [exact H4 |]]]].
  exact (wheel_in_then_out_restores_camera (-1) 1 10 20 0 0 1 H1 H2 H3 H4).
Defined.

Definition db_stored : db_outcome := mkDb true 7.
Definition db_failed : db_outcome := mkDb false 0.
Definition parse_none (_ : string) : option jsval := None.

Lemma alice_bob_conns_nodup : NoDup (map conn [alice; bob]).
Proof.
  simpl; apply NoDup_cons; [simpl; intros [H | []]; discriminate |].
  apply NoDup_cons; [intros [] | apply NoDup_nil].
Qed.

Lemma join_leave_delivery_witness :
  NoDup (map conn [alice; bob]) /\ In 1%nat (map conn [alice; bob]) /\
  sends_to 1 (broadcastToRoom (fst (handle_index 1 "alice" db_stored (join_msg (JStr "2"))
                                      [alice; bob])) (to_String (JStr "2")) JNull) = 1%nat /\
  sends_to 1 (broadcastToRoom (fst (handle_index 1 "alice" db_stored (leave_msg (JStr "2"))
                                      [alice; bob])) (to_String (JStr "2")) JNull) = 0%nat /\
  sends_to 1 (broadcastToRoom (fst (handle_007 parse_none 1 "alice" db_stored
                                      (join_msg (JStr "2")) [alice; bob]))
                (to_String (JStr "2")) JNull) = 1%nat /\
  sends_to 1 (broadcastToRoom (fst (handle_007 parse_none 1 "alice" db_stored
                                      (leave_msg (JStr "2")) [alice; bob]))
                (to_String (JStr "2")) JNull) = 0%nat.
Proof.
  assert (Hin : In 1%nat (map conn [alice; bob])) by (simpl; left; reflexivity).
  split; [exact alice_bob_conns_nodup | split; [exact Hin |]].
  exact (join_leave_delivery parse_none 1 "alice" db_stored (JStr "2") JNull [alice; bob]
           alice_bob_conns_nodup Hin).
Defined.

Definition update_msg : jsval :=
  obj [("type", JStr "update"); ("id", JNum 3); ("shape", JNull); ("roomId", JStr "1")].

Lemma failed_persistence_sends_nothing_witness :
  db_ok db_failed = false /\ str_eq (get "type" update_msg) "delete" = false /\
  forallb (fun e => negb (is_send e)) (snd (handle_index 1 "alice" db_failed update_msg
                                              [alice; bob])) = true /\
  forallb (fun e => negb (is_send e)) (snd (handle_007 parse_none 1 "alice" db_failed
                                              update_msg [alice; bob])) = true.
Proof.
  split; [reflexivity | split; [reflexivity |]].
  apply (failed_persistence_sends_nothing parse_none 1 "alice" db_failed update_msg
           [alice; bob]); reflexivity.
Defined.

Lemma numeric_delete_same_in_both_relays_witness :
  to_Number (JStr "1e3") = Some (NumFin 1000) /\
  handle_index 1 "alice" db_stored (delete_msg "1" (JStr "1e3")) [alice; bob] =
    handle_007 parse_none 1 "alice" db_stored (delete_msg "1" (JStr "1e3")) [alice; bob] /\
  snd (handle_index 1 "alice" db_stored (delete_msg "1" (JStr "1e3")) [alice; bob]) =
    DbDelete (Some (NumFin 1000)) :: Log ::
    broadcastToRoom [alice; bob] "1"
      (obj [("type", JStr "delete"); ("id", JStr "1e3"); ("roomId", JStr "1")]).
Proof.
  assert (Hn : to_Number (JStr "1e3") = Some (NumFin 1000)) by (vm_compute; reflexivity).
  split; [exact Hn |].
  exact (numeric_delete_same_in_both_relays parse_none 1 "alice" db_stored "1" (JStr "1e3")
           (NumFin 1000) [alice; bob] Hn).
Defined.

Definition empty_chat : jsval := obj [("type", JStr "chat"); ("roomId", JStr "1")].

Lemma empty_chat_relays_differ_witness :
  str_eq (get "type" empty_chat) "chat" = true /\
  truthy (get "shape" empty_chat) = false /\ truthy (get "message" empty_chat) = false /\
  handle_007 parse_none 1 "alice" db_stored empty_chat [alice; bob] = ([alice; bob], [Log]) /\
  exists rest,
    snd (handle_index 1 "alice" db_stored empty_chat [alice; bob]) =
    DbCreate (to_Number (get "roomId" empty_chat))
      (obj [("message", get "message" empty_chat)]) "alice" :: rest.
Proof.
  split; [reflexivity | split; [reflexivity | split; [reflexivity |]]].
  apply (empty_chat_relays_differ parse_none 1 "alice" db_stored empty_chat [alice; bob]);
    reflexivity.
Defined.

Definition session_users : list puser := [mkPUser alice (Some 5%Z); mkPUser bob None].

Lemma pong_survives_heartbeat_witness :
  In 1%nat (map pconn session_users) /\ 1000%Z <> 0%Z /\ (40000 - 1000 <= 45000)%Z /\
  In 1%nat (map pconn (fst (heartbeat 40000 (on_pong 1 1000 session_users)))).
Proof.
  assert (Hin : In 1%nat (map pconn session_users)) by (simpl; left; reflexivity).
  assert (Ht : 1000%Z <> 0%Z) by discriminate.
  assert (Hle : (40000 - 1000 <= 45000)%Z) by (vm_compute; discriminate).
  split; [exact Hin | split; [exact Ht | split; [exact Hle |]]].
  exact (pong_survives_heartbeat 1 1000 40000 session_users Hin Ht Hle).
Defined.

Lemma connect_then_close_restores_users_witness :
  ~ In 3%nat (map pconn session_users) /\ "carol"%string <> ""%string /\
  on_close 3 (on_connection 3 (Some "carol"%string) 9 session_users) = session_users.
Proof.
  assert (Hnin : ~ In 3%nat (map pconn session_users))
    by (simpl; intros [H | [H | []]]; discriminate).
  assert (Hu : "carol"%string <> ""%string) by discriminate.
  split; [exact Hnin | split; [exact Hu |]].
  exact (connect_then_close_restores_users 3 "carol" 9 session_users Hnin Hu).
Defined.

Definition rect_a : shape := Rect 0 0 10 10 (mkStroke None None).
Definition rect_b : shape := Rect 20 20 10 10 (mkStroke None None).

Definition game_ab : game :=
  mkGame [mkStored "a" rect_a (Some "a"%string); mkStored "b" rect_b None] None.

Lemma game_ab_nodup : NoDup (ids game_ab).
Proof.
  simpl; apply NoDup_cons; [simpl; intros [H | []]; discriminate |].
  apply NoDup_cons; [intros [] | apply NoDup_nil].
Qed.

Lemma bringToFront_moves_to_top_witness :
  In "a"%string (ids game_ab) /\
  Permutation (existingShapes (fst (bringToFront "a" game_ab))) (existingShapes game_ab) /\
  last (ids (fst (bringToFront "a" game_ab))) ""%string = "a"%string /\
  snd (bringToFront "a" game_ab) = [OutReorder (ids (fst (bringToFront "a" game_ab)))] /\
  selectedShapeId (fst (bringToFront "a" game_ab)) = selectedShapeId game_ab.
Proof.
  assert (Hin : In "a"%string (ids game_ab)) by (simpl; left; reflexivity).
  split; [exact Hin |].
  exact (bringToFront_moves_to_top "a" game_ab Hin).
Defined.

Lemma bringToFront_order_replays_witness :
  NoDup (ids game_ab) /\ In "a"%string (ids game_ab) /\
  applyRemoteReorder (ids (fst (bringToFront "a" game_ab))) (existingShapes game_ab) =
  map clear_temp (existingShapes (fst (bringToFront "a" game_ab))).
Proof.
  assert (Hin : In "a"%string (ids game_ab)) by (simpl; left; reflexivity).
  split; [exact game_ab_nodup | split; [exact Hin |]].
  exact (bringToFront_order_replays "a" game_ab game_ab_nodup Hin).
Defined.

Definition zero_measure (_ : Q) (_ _ : string) : Q := 0.

Lemma zero_move_resize_keeps_shape_witness :
  6 <= 10 /\ 6 <= 8 /\ 3 <= 4 /\
  (exists x' y' w' h',
      applyResize zero_measure (startResize (Rect 1 2 10 8 (mkStroke None None)) 5 5 HSE) 5 5
      = Some (Rect x' y' w' h' (mkStroke None None)) /\
      x' == 1 /\ y' == 2 /\ w' == 10 /\ h' == 8) /\
  (exists x' y' w' h',
      applyResize zero_measure
        (startResize (Diamond 1 2 10 8 None (mkStroke None None)) 5 5 HSE) 5 5
      = Some (Diamond x' y' w' h' None (mkStroke None None)) /\
      x' == 1 /\ y' == 2 /\ w' == 10 /\ h' == 8) /\
  (exists x' y' r',
      applyResize zero_measure (startResize (Circle 1 2 4 (mkStroke None None)) 5 5 HSE) 5 5
      = Some (Circle x' y' r' (mkStroke None None)) /\ x' == 1 /\ y' == 2 /\ r' == 4) /\
  (exists a b c d,
      applyResize zero_measure (startResize (Line 0 0 3 4 (mkStroke None None)) 5 5 HSE) 5 5
      = Some (Line a b c d (mkStroke None None)) /\ a == 0 /\ b == 0 /\ c == 3 /\ d == 4) /\
  (exists a b c d,
      applyResize zero_measure (startResize (Arrow 0 0 3 4 (mkStroke None None)) 5 5 HSE) 5 5
      = Some (Arrow a b c d (mkStroke None None)) /\ a == 0 /\ b == 0 /\ c == 3 /\ d == 4).
Proof.
  assert (H1 : 6 <= 10) by (vm_compute; discriminate).
  assert (H2 : 6 <= 8) by (vm_compute; discriminate).
  assert (H3 : 3 <= 4) by (vm_compute; discriminate).
  split; [exact H1 | split; [exact H2 | split; [exact H3 |]]].
  exact (zero_move_resize_keeps_shape zero_measure HSE 5 5 1 2 10 8 4 (mkStroke None None)
           None 0 0 3 4 H1 H2 H3).
Defined.

Definition stroke_ab : shape := Pencil [(0, 0); (3, 4)] 2 "white".

Lemma stroke_ab_not_empty : forall sw c, stroke_ab <> Pencil [] sw c.
Proof. intros sw c H; discriminate H. Qed.

Lemma translateShape_moves_bbox_witness :
  (forall sw c, stroke_ab <> Pencil [] sw c) /\
  bx (bbox (translateShape stroke_ab 5 7)) == bx (bbox stroke_ab) + 5 /\
  by_ (bbox (translateShape stroke_ab 5 7)) == by_ (bbox stroke_ab) + 7 /\
  bw (bbox (translateShape stroke_ab 5 7)) == bw (bbox stroke_ab) /\
  bh (bbox (translateShape stroke_ab 5 7)) == bh (bbox stroke_ab).
Proof.
  split; [exact stroke_ab_not_empty |].
  exact (translateShape_moves_bbox stroke_ab 5 7 stroke_ab_not_empty).
Defined.

Lemma translate_keeps_hits_witness :
  (forall sw c, stroke_ab <> Pencil [] sw c) /\
  hit_handle (3 + 5) (4 + 7) (translateShape stroke_ab 5 7) = hit_handle 3 4 stroke_ab /\
  pointInShape (3 + 5) (4 + 7) (translateShape stroke_ab 5 7) default_padding =
    pointInShape 3 4 stroke_ab default_padding.
Proof.
  split; [exact stroke_ab_not_empty |].
  exact (translate_keeps_hits 3 4 stroke_ab 5 7 default_padding stroke_ab_not_empty).
Defined.

Lemma reversed_rect_not_erasable_witness :
  (0 < 10 \/ 20 < 10) /\
  exists sh, drag_shape (fun q => q) TRect 10 10 0 20 2 "white" = Some sh /\
             eraser_hit eraserSize 5 15 sh = false.
Proof.
  assert (H : 0 < 10 \/ 20 < 10) by (left; vm_compute; reflexivity).
  split; [exact H |].
  exact (reversed_rect_not_erasable (fun q => q) 10 10 0 20 2 "white" eraserSize 5 15 H).
Defined.

Definition drawn_pts : list point := [(0, 0); (1, 5); (2, 0); (3, 1); (4, 0)].

Lemma simplifyRDP_keeps_drawn_points_witness :
  simplifyRDP drawn_pts (3 # 2) = Some [(0, 0); (1, 5); (2, 0); (4, 0)] /\
  sublist [(0, 0); (1, 5); (2, 0); (4, 0)] drawn_pts.
Proof.
  assert (E : simplifyRDP drawn_pts (3 # 2) = Some [(0, 0); (1, 5); (2, 0); (4, 0)])
    by (vm_compute; reflexivity).
  split; [exact E |].
  exact (simplifyRDP_keeps_drawn_points drawn_pts (3 # 2) _ E).
Defined.

End ExtraWitnesses.
